(** * ctdsLint: the component complexity analyzer, component discovery and
    the audit score helper

    A shallow embedding of
    - [core/complexity-analyzer.ts] (structural, cyclomatic, Halstead and
      composite metrics, [analyzeComponentComplexity], [analyzeAllComponents]),
    - [findComponents] of the plugin data adapter,
    - [calculateAuditStats] of the CLI reporters and the plugin message
      handler,
    together with the properties the specification states about them.

    Numbers.  Counters are [nat].  The numeric payload of a node (radii,
    paddings, colour channels, ...) is a rational [Qc]: every finite double
    is one, and the analyzer only compares these values and prints them into
    tokens.  The Halstead and composite formulas use [Math.log2]; they are
    read over the real numbers [R], and the Halstead record is computed a
    second time with binary64 floats ([Binary64]), [Math.log2] being a
    parameter there.  The audit score helper only divides, multiplies and
    rounds, and is modelled with binary64 floats. *)

From Stdlib Require Import ZArith QArith Qcanon Qround Qabs Floats Reals Lra Lia.
From Stdlib Require Import Ascii.
From stdpp Require Import gmap strings list numbers pretty sorting.

Set Default Proof Using "Type".
#[local] Set Warnings "-register-all,-clear-no-such-hyp".
Close Scope R_scope.
Open Scope nat_scope.

(** ** Canonical snapshot model (the part the analyzer reads)

    Modelled from the spec: the declarations of [LintNode], [LintPaint],
    [LintEffect], [LintRGBA] and of the property definitions (shared/types.ts)
    are not among the sources.  The records below hold the fields that the
    analyzer and [findComponents] read, typed as section 3 of the
    specification and the plugin adapter ([adaptNode], [adaptPaint],
    [adaptEffect], [adaptColor]) give them. *)

Record LintRGBA := mkRGBA {
  rgba_r : Qc; rgba_g : Qc; rgba_b : Qc; rgba_a : Qc }.

(** A paint: SOLID paints carry a colour, the other paints only a type and
    a visibility; ['color' in f] is [paint_color f ≠ None]. *)
Record LintPaint := mkPaint {
  paint_type : string; paint_visible : bool; paint_color : option LintRGBA }.

Record LintEffect := mkEffect {
  effect_type : string; effect_visible : bool; effect_color : option LintRGBA }.

Record LintConstraints := mkConstraints {
  horizontal : string; vertical : string }.

(** [number | 'MIXED'] *)
Inductive NumOrMixed := Num (q : Qc) | MIXED.

Record PropertyDefinition := mkDef {
  def_type : string; variantOptions : option (list string) }.

(** Modelled from the spec: [LintNode] (see above).  An optional field is an
    [option]; a JS object used as a map is a [gmap]. *)
Inductive LintNode := mkLintNode {
  node_id : string;
  node_name : string;
  node_type : string;
  fills : option (list LintPaint);
  strokes : option (list LintPaint);
  effects : option (list LintEffect);
  cornerRadius : option NumOrMixed;
  opacity : option Qc;
  strokeWeight : option Qc;
  layoutMode : option string;
  layoutSizingHorizontal : option string;
  layoutSizingVertical : option string;
  paddingTop : option Qc;
  paddingRight : option Qc;
  paddingBottom : option Qc;
  paddingLeft : option Qc;
  itemSpacing : option Qc;
  blendMode : option string;
  constraints : option LintConstraints;
  fontSize : option NumOrMixed;
  componentPropertyDefinitions : option (gmap string PropertyDefinition);
  children : option (list LintNode) }.

(** [node.children ?? []] *)
Definition kids (node : LintNode) : list LintNode :=
  match children node with Some l => l | None => [] end.

(** A node that carries only an id, a name, a type and children. *)
Definition plain (i n t : string) (cs : option (list LintNode)) : LintNode :=
  mkLintNode i n t None None None None None None None None None None None
             None None None None None None None cs.

(** The same with property definitions. *)
Definition with_defs (i n t : string) (ds : gmap string PropertyDefinition)
    (cs : option (list LintNode)) : LintNode :=
  mkLintNode i n t None None None None None None None None None None None
             None None None None None None (Some ds) cs.

(** All nodes of a subtree, depth first, children in document order. *)
Fixpoint subtree (node : LintNode) : list LintNode :=
  node :: match children node with
          | Some l => flat_map subtree l
          | None => []
          end.

(** Longest downward path, in edges: the depth of the deepest node when the
    root is at depth 0. *)
Fixpoint height (node : LintNode) : nat :=
  match children node with
  | Some l => foldr (fun c m => S (height c) `max` m) 0 l
  | None => 0
  end.

(** ** Structural metrics *)

(** What the histogram object holds under one of its own keys: a count or,
    under the name of a method that every object inherits, the text that
    [+ 1] makes of that method, which is the source text of the method
    [name] followed by [ones] digits 1. *)
Inductive Entry :=
  | Count (n : nat)
  | Spoiled (name : string) (ones : nat).

#[global] Instance Entry_eq_dec : EqDecision Entry.
Proof. solve_decision. Defined.

Record StructuralMetrics := mkStructural {
  nodeCount : nat;
  maxDepth : nat;
  leafCount : nat;
  maxFanOut : nat;
  uniqueTypes : nat;
  typeDistribution : gmap string Entry }.

(** The mutable locals of [computeStructuralMetrics] that its inner [walk]
    updates. *)
Record StructuralState := mkSS {
  ss_nodeCount : nat;
  ss_leafCount : nat;
  ss_maxDepth : nat;
  ss_maxFanOut : nat;
  ss_typeDistribution : gmap string Entry }.

(** The methods that the plain object [{}] inherits from
    [Object.prototype] (ECMA-262, 20.1.3 and B.2.2): reading one of these
    names on an object that has no such key of its own yields a function. *)
Definition inherited_methods : list string :=
  ["constructor"; "hasOwnProperty"; "isPrototypeOf"; "propertyIsEnumerable";
   "toLocaleString"; "toString"; "valueOf"; "__defineGetter__";
   "__defineSetter__"; "__lookupGetter__"; "__lookupSetter__"].

(** [typeDistribution[t] = (typeDistribution[t] ?? 0) + 1] on the plain
    object [typeDistribution = {}], whose own keys are the keys of the map.
    - Under an own key a number is incremented, and a string (it is not
      nullish) has the digit 1 appended.
    - Without an own key the read goes to the prototype.  For [__proto__]
      it yields the prototype itself; the sum is a string, and the
      inherited setter ignores a string: no key is made.  For the name of
      an inherited method it yields the function; the sum is its source
      text followed by 1, stored under a new own key.  For any other name
      it yields [undefined], and 1 is stored. *)
Definition bump (t : string) (m : gmap string Entry) : gmap string Entry :=
  match m !! t with
  | Some (Count n) => <[t := Count (n + 1)]> m
  | Some (Spoiled name ones) => <[t := Spoiled name (ones + 1)]> m
  | None =>
      if decide (t = "__proto__") then m
      else if decide (t ∈ inherited_methods) then <[t := Spoiled t 1]> m
      else <[t := Count 1]> m
  end.

Module Structural.

Fixpoint walk (node : LintNode) (depth : nat) (s : StructuralState)
    : StructuralState :=
  let s := mkSS (S (ss_nodeCount s)) (ss_leafCount s) (ss_maxDepth s)
                (ss_maxFanOut s) (bump (node_type node) (ss_typeDistribution s)) in
  let s := if ss_maxDepth s <? depth
           then mkSS (ss_nodeCount s) (ss_leafCount s) depth
                     (ss_maxFanOut s) (ss_typeDistribution s)
           else s in
  (* [const children = node.children ?? []]: an absent list has length 0 *)
  match children node with
  | None =>
      mkSS (ss_nodeCount s) (S (ss_leafCount s)) (ss_maxDepth s)
           (ss_maxFanOut s) (ss_typeDistribution s)
  | Some children =>
      if length children =? 0
      then mkSS (ss_nodeCount s) (S (ss_leafCount s)) (ss_maxDepth s)
                (ss_maxFanOut s) (ss_typeDistribution s)
      else
        let s := if ss_maxFanOut s <? length children
                 then mkSS (ss_nodeCount s) (ss_leafCount s) (ss_maxDepth s)
                           (length children) (ss_typeDistribution s)
                 else s in
        foldl (fun s child => walk child (depth + 1) s) s children
  end.

End Structural.

Definition computeStructuralMetrics (root : LintNode) : StructuralMetrics :=
  let s := Structural.walk root 0 (mkSS 0 0 0 0 ∅) in
  mkStructural (ss_nodeCount s) (ss_maxDepth s) (ss_leafCount s)
               (ss_maxFanOut s)
               (* [Object.keys(typeDistribution).length] *)
               (size (ss_typeDistribution s))
               (ss_typeDistribution s).

(** ** Cyclomatic complexity (design equivalent) *)

Record CyclomaticBreakdown := mkBreakdown {
  variants : nat;
  booleanProps : nat;
  instanceSwaps : nat;
  textProps : nat }.

Record CyclomaticMetrics := mkCyclomatic {
  score : nat;
  breakdown : CyclomaticBreakdown }.

Module Cyclomatic.

(** The body of the [switch (def.type)]: a type outside the four cases
    falls through and changes nothing. *)
Definition visit (def : PropertyDefinition) (s : CyclomaticBreakdown)
    : CyclomaticBreakdown :=
  if String.eqb (def_type def) "VARIANT" then
    (* [variants += (def.variantOptions?.length ?? 1)] *)
    mkBreakdown (variants s + match variantOptions def with
                              | Some opts => length opts
                              | None => 1
                              end)
                (booleanProps s) (instanceSwaps s) (textProps s)
  else if String.eqb (def_type def) "BOOLEAN" then
    mkBreakdown (variants s) (S (booleanProps s)) (instanceSwaps s) (textProps s)
  else if String.eqb (def_type def) "INSTANCE_SWAP" then
    mkBreakdown (variants s) (booleanProps s) (S (instanceSwaps s)) (textProps s)
  else if String.eqb (def_type def) "TEXT" then
    mkBreakdown (variants s) (booleanProps s) (instanceSwaps s) (S (textProps s))
  else s.

(** [for (const def of Object.values(defs))] *)
Definition visit_all (defs : gmap string PropertyDefinition)
    (s : CyclomaticBreakdown) : CyclomaticBreakdown :=
  map_fold (fun _ def s => visit def s) s defs.

Fixpoint walk (node : LintNode) (s : CyclomaticBreakdown)
    : CyclomaticBreakdown :=
  let s := match componentPropertyDefinitions node with
           | Some defs => visit_all defs s
           | None => s
           end in
  match children node with
  | Some cs => foldl (fun s child => walk child s) s cs
  | None => s
  end.

End Cyclomatic.

Definition computeCyclomaticMetrics (root : LintNode) : CyclomaticMetrics :=
  let s := Cyclomatic.walk root (mkBreakdown 0 0 0 0) in
  mkCyclomatic (1 + variants s + booleanProps s + instanceSwaps s + textProps s) s.

(** What one property definition adds to the score: the length of the
    option list of a VARIANT property, 1 when it carries no option list, and
    1 for each of the three other kinds.  An empty option list counts 0. *)
Definition def_paths (def : PropertyDefinition) : nat :=
  if decide (def_type def = "VARIANT") then
    match variantOptions def with
    | Some opts => length opts
    | None => 1
    end
  else if decide (def_type def = "BOOLEAN") then 1
  else if decide (def_type def = "INSTANCE_SWAP") then 1
  else if decide (def_type def = "TEXT") then 1
  else 0.

(** The sum of [def_paths] over the definitions one node carries. *)
Definition node_paths (node : LintNode) : nat :=
  match componentPropertyDefinitions node with
  | Some defs => sum_list (def_paths <$> (map_to_list defs).*2)
  | None => 0
  end.

(** The same as the specification words it: "for a VARIANT property, the
    count of its declared options; a property with no declared options
    contributes 1".  A property declares no options when it carries no
    option list and when its option list is empty. *)
Definition spec_def_paths (def : PropertyDefinition) : nat :=
  if decide (def_type def = "VARIANT") then
    match variantOptions def with
    | Some (opt :: opts) => length (opt :: opts)
    | Some [] => 1
    | None => 1
    end
  else if decide (def_type def = "BOOLEAN") then 1
  else if decide (def_type def = "INSTANCE_SWAP") then 1
  else if decide (def_type def = "TEXT") then 1
  else 0.

Definition spec_node_paths (node : LintNode) : nat :=
  match componentPropertyDefinitions node with
  | Some defs => sum_list (spec_def_paths <$> (map_to_list defs).*2)
  | None => 0
  end.

(** The score as the specification words it. *)
Definition spec_cyclomatic (root : LintNode) : nat :=
  1 + sum_list (spec_node_paths <$> subtree root).

(** ** Component discovery *)

Record LintComponent := mkComponent {
  node : LintNode;
  pageName : string }.

Record LintPage := mkPage {
  page_name : string;
  page_children : list LintNode }.

Module Discovery.

Fixpoint walk (n : LintNode) (pageName : string)
    (components : list LintComponent) : list LintComponent :=
  let components :=
    if String.eqb (node_type n) "COMPONENT"
       || String.eqb (node_type n) "COMPONENT_SET"
    then components ++ [mkComponent n pageName]
    else components in
  match children n with
  | Some cs => foldl (fun acc child => walk child pageName acc) components cs
  | None => components
  end.

End Discovery.

Definition findComponents (pages : list LintPage) : list LintComponent :=
  foldl (fun components page =>
           foldl (fun components child =>
                    Discovery.walk child (page_name page) components)
                 components (page_children page))
        [] pages.

(** [node.type === 'COMPONENT' || node.type === 'COMPONENT_SET'] *)
Definition is_component (n : LintNode) : Prop :=
  node_type n = "COMPONENT" ∨ node_type n = "COMPONENT_SET".

#[global] Instance is_component_dec n : Decision (is_component n).
Proof. unfold is_component. apply _. Defined.

(** ** Halstead complexity (design equivalent) *)

(** A token of the operator bag.  The source pushes the string
    [`tag:${payload}`]; the tag and the payload are kept apart here.  No tag
    contains a colon, so two such strings are equal exactly when the tags and
    the payloads are. *)
Inductive Operator :=
  | op_type (t : string)
  | op_layout (m : string)
  | op_sizingH (m : string)
  | op_sizingV (m : string)
  | op_blend (m : string)
  | op_constraintH (c : string)
  | op_constraintV (c : string)
  | op_effect (t : string).

(** A token of the operand bag.  Colours carry their four channels printed
    by [toFixed(2)] and joined by commas; the other numbers are printed by
    the template literal, which prints different numbers differently. *)
Inductive Operand :=
  | od_color (c : string)
  | od_strokeColor (c : string)
  | od_effectColor (c : string)
  | od_radius (x : Qc)
  | od_opacity (x : Qc)
  | od_strokeWeight (x : Qc)
  | od_fontSize (x : Qc)
  | od_paddingTop (x : Qc)
  | od_paddingRight (x : Qc)
  | od_paddingBottom (x : Qc)
  | od_paddingLeft (x : Qc)
  | od_itemSpacing (x : Qc).

#[global] Instance Operator_eq_dec : EqDecision Operator.
Proof. solve_decision. Defined.

#[global] Instance Operand_eq_dec : EqDecision Operand.
Proof. solve_decision. Defined.

(** [x.toFixed(2)]: the sign, then the integer [n] nearest to [|x| * 100]
    (the larger one on a tie) printed with two decimals. *)
Definition toFixed2 (x : Qc) : string :=
  let n := Qfloor (Qabs x * 100 + (1 # 2))%Q in
  let sign := if decide (x < 0)%Qc then "-" else "" in
  let units := pretty (n / 100)%Z in
  let tenths := pretty ((n mod 100) / 10)%Z in
  let hundredths := pretty (n mod 10)%Z in
  sign +:+ units +:+ "." +:+ tenths +:+ hundredths.

(** [`${c.r.toFixed(2)},${c.g.toFixed(2)},${c.b.toFixed(2)},${c.a.toFixed(2)}`] *)
Definition color_key (c : LintRGBA) : string :=
  toFixed2 (rgba_r c) +:+ "," +:+ toFixed2 (rgba_g c) +:+ ","
    +:+ toFixed2 (rgba_b c) +:+ "," +:+ toFixed2 (rgba_a c).

(** Truthiness of an optional string: present and not empty. *)
Definition truthy (s : option string) : bool :=
  match s with
  | Some v => negb (String.eqb v "")
  | None => false
  end.

Module Halstead.

Record Bags := mkBags {
  operatorBag : list Operator;
  operandBag : list Operand }.

Definition push_op (t : Operator) (s : Bags) : Bags :=
  mkBags (operatorBag s ++ [t]) (operandBag s).

Definition push_od (t : Operand) (s : Bags) : Bags :=
  mkBags (operatorBag s) (operandBag s ++ [t]).

(** [if (cond) bag.push(...)] *)
Definition when (cond : bool) (f : Bags -> Bags) (s : Bags) : Bags :=
  if cond then f s else s.

(** [if (x !== undefined) operandBag.push(`tag:${x}`)] *)
Definition push_num (tag : Qc -> Operand) (x : option Qc) (s : Bags) : Bags :=
  match x with
  | Some v => push_od (tag v) s
  | None => s
  end.

(** A loop over an optional list, guarded by [if (list)]. *)
Definition each {A} (l : option (list A)) (f : A -> Bags -> Bags) (s : Bags)
    : Bags :=
  match l with
  | Some xs => foldl (fun s x => f x s) s xs
  | None => s
  end.

(** The operator half of the body of [walk]. *)
Definition operators_of (node : LintNode) (s : Bags) : Bags :=
  let s := push_op (op_type (node_type node)) s in
  let s := when (truthy (layoutMode node)
                 && negb (bool_decide (layoutMode node = Some "NONE")))
             (push_op (op_layout (default "" (layoutMode node)))) s in
  let s := when (truthy (layoutSizingHorizontal node))
             (push_op (op_sizingH (default "" (layoutSizingHorizontal node)))) s in
  let s := when (truthy (layoutSizingVertical node))
             (push_op (op_sizingV (default "" (layoutSizingVertical node)))) s in
  let s := when (truthy (blendMode node)
                 && negb (bool_decide (blendMode node = Some "PASS_THROUGH")))
             (push_op (op_blend (default "" (blendMode node)))) s in
  let s := match constraints node with
           | Some c => push_op (op_constraintV (vertical c))
                         (push_op (op_constraintH (horizontal c)) s)
           | None => s
           end in
  each (effects node)
       (fun e => when (effect_visible e) (push_op (op_effect (effect_type e)))) s.

(** [p.visible && p.type === 'SOLID' && 'color' in p] *)
Definition solid_color (p : LintPaint) : option LintRGBA :=
  if paint_visible p && String.eqb (paint_type p) "SOLID"
  then paint_color p else None.

Definition push_paint (tag : string -> Operand) (p : LintPaint) (s : Bags)
    : Bags :=
  match solid_color p with
  | Some c => push_od (tag (color_key c)) s
  | None => s
  end.

(** [if (x !== undefined && x !== 'MIXED') operandBag.push(`tag:${x}`)] *)
Definition push_unmixed (tag : Qc -> Operand) (x : option NumOrMixed)
    (s : Bags) : Bags :=
  match x with
  | Some (Num v) => push_od (tag v) s
  | _ => s
  end.

(** The operand half of the body of [walk]. *)
Definition operands_of (node : LintNode) (s : Bags) : Bags :=
  let s := each (fills node) (push_paint od_color) s in
  let s := each (strokes node) (push_paint od_strokeColor) s in
  let s := each (effects node)
             (fun e s => match effect_color e with
                         | Some c => when (effect_visible e)
                                       (push_od (od_effectColor (color_key c))) s
                         | None => s
                         end) s in
  let s := push_unmixed od_radius (cornerRadius node) s in
  let s := match opacity node with
           | Some v => when (negb (bool_decide (v = 1%Qc)))
                         (push_od (od_opacity v)) s
           | None => s
           end in
  let s := match strokeWeight node with
           | Some v => when (bool_decide (0 < v)%Qc)
                         (push_od (od_strokeWeight v)) s
           | None => s
           end in
  let s := push_unmixed od_fontSize (fontSize node) s in
  let s := push_num od_paddingTop (paddingTop node) s in
  let s := push_num od_paddingRight (paddingRight node) s in
  let s := push_num od_paddingBottom (paddingBottom node) s in
  let s := push_num od_paddingLeft (paddingLeft node) s in
  push_num od_itemSpacing (itemSpacing node) s.

Fixpoint walk (node : LintNode) (s : Bags) : Bags :=
  let s := operands_of node (operators_of node s) in
  match children node with
  | Some cs => foldl (fun s child => walk child s) s cs
  | None => s
  end.

(** No token yet. *)
Definition empty : Bags := mkBags [] [].

(** The bags of [s] followed by those of [t]. *)
Definition join (s t : Bags) : Bags :=
  mkBags (operatorBag s ++ operatorBag t) (operandBag s ++ operandBag t).

(** A step of the walk only ever pushes, and what it pushes does not
    depend on what the bags hold. *)
Definition additive (f : Bags -> Bags) : Prop :=
  forall s, f s = join s (f empty).

(** The tokens one node contributes. *)
Definition node_bags (node : LintNode) : Bags :=
  operands_of node (operators_of node empty).

End Halstead.

(** [Math.log2] *)
Definition log2 (x : R) : R := Rlog 2 x.

(** [Math.round]: the nearest integer, the larger one on a tie. *)
Definition Math_round (x : R) : Z := Zfloor (x + / 2).

(** [Math.round(x * 10) / 10] *)
Definition round1 (x : R) : R := (IZR (Math_round (x * 10)) / 10)%R.

Record TokenCount := mkCount {
  unique : nat;
  total : nat }.

Record HalsteadMetrics := mkHalstead {
  vocabulary : nat;
  length_ : nat;
  volume : R;
  difficulty : R;
  effort : R;
  operators : TokenCount;
  operands : TokenCount }.

(** The values [computeHalsteadMetrics] holds before it rounds them for the
    record it returns, read as real numbers: the exact values, of which the
    doubles of the source are approximations ([Binary64] below computes
    with the doubles). *)
Record HalsteadRaw := mkRaw {
  raw_n1 : nat; raw_n2 : nat; raw_N1 : nat; raw_N2 : nat;
  raw_vocabulary : nat;
  raw_length : nat;
  raw_volume : R;
  raw_difficulty : R;
  raw_effort : R }.

Definition halstead_raw (root : LintNode) : HalsteadRaw :=
  let s := Halstead.walk root (Halstead.mkBags [] []) in
  (* [new Set(bag).size] *)
  let n1 := length (remove_dups (Halstead.operatorBag s)) in
  let n2 := length (remove_dups (Halstead.operandBag s)) in
  let N1 := length (Halstead.operatorBag s) in
  let N2 := length (Halstead.operandBag s) in
  let vocabulary := n1 + n2 in
  let length := N1 + N2 in
  let volume := if (0 <? length) && (0 <? vocabulary)
                then (INR length * log2 (INR vocabulary))%R
                else 0%R in
  let difficulty := if 0 <? n2
                    then ((INR n1 / 2) * (INR N2 / INR n2))%R
                    else 0%R in
  let effort := (difficulty * volume)%R in
  mkRaw n1 n2 N1 N2 vocabulary length volume difficulty effort.

(** [computeHalsteadMetrics] with its numbers read as real numbers: the
    record of the exact values rounded to one decimal place. *)
Definition computeHalsteadMetrics (root : LintNode) : HalsteadMetrics :=
  let h := halstead_raw root in
  mkHalstead (raw_vocabulary h) (raw_length h)
             (round1 (raw_volume h)) (round1 (raw_difficulty h))
             (round1 (raw_effort h))
             (mkCount (raw_n1 h) (raw_N1 h)) (mkCount (raw_n2 h) (raw_N2 h)).

(** ** Composite score *)

#[local] Open Scope R_scope.

Definition computeCompositeScore (structural : StructuralMetrics)
    (cyclomatic : CyclomaticMetrics) (halstead : HalsteadMetrics) : Z :=
  let structuralScore :=
    Rmin 100 (log2 (INR (nodeCount structural) + 1) / log2 500 * 70
              + INR (maxDepth structural) / 15 * 30) in
  let cyclomaticScore :=
    Rmin 100 ((INR (score cyclomatic) - 1) / 19 * 100) in
  let halsteadScore :=
    if Rlt_dec 0 (volume halstead)
    then Rmin 100 (log2 (volume halstead) / log2 5000 * 100)
    else 0 in
  let composite :=
    structuralScore * (3 / 10) + cyclomaticScore * (3 / 10)
    + halsteadScore * (4 / 10) in
  Math_round (Rmin 100 (Rmax 0 composite)).

(** The three axis scores and their blend, as the specification words
    them, from the four numbers they depend on. *)
Definition spec_structuralScore (nodes depth : nat) : R :=
  Rmin 100 (log2 (INR nodes + 1) / log2 500 * 70 + INR depth / 15 * 30).

Definition spec_cyclomaticScore (cyclomatic : nat) : R :=
  Rmin 100 ((INR cyclomatic - 1) / 19 * 100).

Definition spec_halsteadScore (vol : R) : R :=
  if Rlt_dec 0 vol then Rmin 100 (log2 vol / log2 5000 * 100) else 0.

Definition clamp (x lo hi : R) : R := Rmin hi (Rmax lo x).

Definition spec_composite (nodes depth cyclomatic : nat) (vol : R) : Z :=
  Math_round (clamp (spec_structuralScore nodes depth * (3 / 10)
                     + spec_cyclomaticScore cyclomatic * (3 / 10)
                     + spec_halsteadScore vol * (4 / 10)) 0 100).

#[local] Close Scope R_scope.

(** ** Public API *)

Record ComponentComplexityResult := mkResult {
  componentName : string;
  nodeId : string;
  structural : StructuralMetrics;
  cyclomatic : CyclomaticMetrics;
  halstead : HalsteadMetrics;
  composite : Z }.

Definition analyzeComponentComplexity (component : LintComponent)
    : ComponentComplexityResult :=
  let n := node component in
  let structural := computeStructuralMetrics n in
  let cyclomatic := computeCyclomaticMetrics n in
  let halstead := computeHalsteadMetrics n in
  let composite := computeCompositeScore structural cyclomatic halstead in
  mkResult (node_name n) (node_id n) structural cyclomatic halstead composite.

(** [results.sort((a, b) => b.composite - a.composite)]: the sort is stable,
    so its result is the one of a stable insertion sort.  [insert_desc] puts
    [x], which stood before all of [l], in front of the first element that
    need not precede it. *)
Fixpoint insert_desc (x : ComponentComplexityResult)
    (l : list ComponentComplexityResult) : list ComponentComplexityResult :=
  match l with
  | [] => [x]
  | y :: l' =>
      if (composite x <? composite y)%Z
      then y :: insert_desc x l'
      else x :: y :: l'
  end.

Definition sort_desc (l : list ComponentComplexityResult)
    : list ComponentComplexityResult :=
  foldr insert_desc [] l.

(** What an untyped caller may put into the component array: a value of the
    [LintComponent] shape, or a value without a [node] object (such as
    [null] or [{pageName: 'p'}]), on which reading [comp.node.name] or
    [node.type] raises a [TypeError].  Values of other shapes (such as
    [{node: 5}], on which every read yields [undefined] and the analyzer
    returns) are not represented: a statement about a list of [Untyped]
    elements is about an array of elements of these two kinds. *)
Inductive Untyped (A : Type) :=
  | Shaped (a : A)
  | Misshapen.
Arguments Shaped {A} a.
Arguments Misshapen {A}.

Inductive Exn :=
  | TypeError
  | Thrown (what : string).

Inductive Outcome (A : Type) :=
  | Returns (a : A)
  | Raises (e : Exn).
Arguments Returns {A} a.
Arguments Raises {A} e.

Section Batch.
(** The state a progress callback writes to (a console, a log).  The
    callback is handed the message only; it returns or throws. *)
Context {W : Type}.

Definition Progress : Type := string -> W -> W * option Exn.

(** [`Analyzing ${comp.node.name} (${i + 1}/${components.length})`] *)
Definition progress_message (comp : LintComponent) (i len : nat) : string :=
  "Analyzing " +:+ node_name (node comp) +:+ " (" +:+ pretty (i + 1)
    +:+ "/" +:+ pretty len +:+ ")".

(** [if (onProgress) { onProgress(...) }] *)
Definition notify (onProgress : option Progress)
    (comp : Untyped LintComponent) (i len : nat) (w : W) : W * option Exn :=
  match onProgress with
  | None => (w, None)
  | Some f =>
      match comp with
      | Shaped c => f (progress_message c i len) w
      | Misshapen => (w, Some TypeError)
      end
  end.

(** [analyzeComponentComplexity(comp)] on an array element. *)
Definition analyze (comp : Untyped LintComponent)
    : Outcome ComponentComplexityResult :=
  match comp with
  | Shaped c => Returns (analyzeComponentComplexity c)
  | Misshapen => Raises TypeError
  end.

(** The [for] loop, from index [i] on; [len] is [components.length].
    There is no [try] in the source: whatever is raised leaves the loop
    and the function. *)
Fixpoint loop (rest : list (Untyped LintComponent)) (i len : nat)
    (onProgress : option Progress)
    (results : list ComponentComplexityResult) (w : W)
    : W * Outcome (list ComponentComplexityResult) :=
  match rest with
  | [] => (w, Returns results)
  | comp :: rest =>
      match notify onProgress comp i len w with
      | (w, Some e) => (w, Raises e)
      | (w, None) =>
          match analyze comp with
          | Raises e => (w, Raises e)
          | Returns r => loop rest (S i) len onProgress (results ++ [r]) w
          end
      end
  end.

Definition analyzeAllComponents (components : list (Untyped LintComponent))
    (onProgress : option Progress) (w : W)
    : W * Outcome (list ComponentComplexityResult) :=
  match loop components 0 (length components) onProgress [] w with
  | (w, Returns results) => (w, Returns (sort_desc results))
  | (w, Raises e) => (w, Raises e)
  end.

End Batch.

(** The result list of a batch that returned; [None] when it raised. *)
Definition returned {W A} (r : W * Outcome A) : option A :=
  match r.2 with
  | Returns a => Some a
  | Raises _ => None
  end.

(** ** Audit score helper *)

Module Reporters.

(** Modelled from the spec: the declaration of [AuditCheck] (types.ts) is
    not among the sources; the data model gives
    [{check, status: pass|fail, suggestion, pageName?}]. *)
Inductive Status := pass | fail.

#[global] Instance Status_eq_dec : EqDecision Status.
Proof. solve_decision. Defined.

Record AuditCheck := mkCheck {
  check : string;
  status : Status;
  suggestion : string;
  check_pageName : option string }.

Record ScoreStats := mkStats {
  score : Z;
  passed : nat;
  warnings : nat;
  failed : nat;
  total : nat }.

(** A length or a count as a JS number (exact below [2^53]). *)
Definition number (n : nat) : float :=
  PrimFloat.of_uint63 (Uint63.of_Z (Z.of_nat n)).

(** [Math.round] on a binary64 value [m * 2^e]: the floor of its exact sum
    with one half.  NaN and the infinities, which the helper cannot
    produce, are sent to 0. *)
Definition Math_round_f64 (x : float) : Z :=
  match Prim2SF x with
  | S754_finite s m e =>
      let num := if s then Z.neg m else Z.pos m in
      if (0 <=? e)%Z then (num * 2 ^ e)%Z
      else ((2 * num + 2 ^ (- e)) / 2 ^ (1 - e))%Z
  | _ => 0%Z
  end.

Definition calculateAuditStats (checks : list AuditCheck) : ScoreStats :=
  if length checks =? 0 then mkStats 100 0 0 0 0
  else
    let passed := length (filter (fun c => status c = pass) checks) in
    let failed := length (filter (fun c => status c = fail) checks) in
    let total := length checks in
    let score := Math_round_f64 ((number passed / number total) * 100)%float in
    mkStats score passed 0 failed total.

(** [round(100 × passed/total)] in exact arithmetic, halves upwards. *)
Definition exact_percent (passed total : nat) : Z :=
  ((200 * Z.of_nat passed + Z.of_nat total) / (2 * Z.of_nat total))%Z.

(** Forty checks of which twenty-three pass. *)
Definition checks_23_of_40 : list AuditCheck :=
  replicate 23 (mkCheck "collection" pass "" None)
  ++ replicate 17 (mkCheck "collection" fail "add the category" None).

End Reporters.

(** ** Traversals used to state the properties *)

(** The subtree in walk order, every node with its depth; the root of the
    walk is at depth [d]. *)
Fixpoint nodes_at (n : LintNode) (d : nat) : list (LintNode * nat) :=
  (n, d) :: match children n with
            | Some l => flat_map (fun c => nodes_at c (d + 1)) l
            | None => []
            end.

(** What the structural walk does at one node, apart from walking on. *)
Definition visit_structural (s : StructuralState) (p : LintNode * nat)
    : StructuralState :=
  let fan := length (kids p.1) in
  mkSS (S (ss_nodeCount s))
       (if fan =? 0 then S (ss_leafCount s) else ss_leafCount s)
       (ss_maxDepth s `max` p.2)
       (ss_maxFanOut s `max` fan)
       (bump (node_type p.1) (ss_typeDistribution s)).

(** The number of nodes of type [t] among [l]. *)
Definition count_type (t : string) (l : list LintNode) : nat :=
  length (filter (fun n => node_type n = t) l).

(** The sum of the counts of a histogram. *)
Definition histogram_total (m : gmap string nat) : nat :=
  map_fold (fun _ c acc => c + acc) 0 m.

(** A type tag under which the histogram object counts: it is not the name
    of a property that every object inherits.  The tags of the design tool
    (FRAME, TEXT, COMPONENT, ...) are of this kind. *)
Definition plain_tag (t : string) : Prop :=
  t <> "__proto__" /\ t ∉ inherited_methods.

#[global] Instance plain_tag_dec t : Decision (plain_tag t).
Proof. unfold plain_tag. apply _. Defined.

(** One more node of type [t] in a histogram that holds counts only. *)
Definition tick (t : string) (m : gmap string nat) : gmap string nat :=
  <[t := default 0 (m !! t) + 1]> m.

(** The histogram is as the specification words it: it holds, under each
    type tag that occurs in the subtree and under no other key, the number
    of nodes that carry the tag, and these numbers add up to [nodes]. *)
Definition counts_by_type (root : LintNode) (nodes : nat)
    (histogram : gmap string Entry) : Prop :=
  exists counts : gmap string nat,
    histogram = Count <$> counts
    /\ (forall t, counts !! t =
                  if decide (count_type t (subtree root) = 0) then None
                  else Some (count_type t (subtree root)))
    /\ nodes = histogram_total counts.

(** Induction on a node with the property known for its children. *)
Section LintNode_induction.
Variable P : LintNode -> Prop.
Hypothesis step : forall n, Forall P (kids n) -> P n.

Fixpoint LintNode_kids_ind (n : LintNode) : P n :=
  step n
    match n as n0 return Forall P (kids n0) with
    | mkLintNode _ _ _ _ _ _ _ _ _ _ _ _ _ _ _ _ _ _ _ _ _ cs =>
        match cs as o
              return Forall P (match o with Some l => l | None => [] end) with
        | Some l =>
            (fix all (l : list LintNode) : Forall P l :=
               match l with
               | [] => @List.Forall_nil _ P
               | c :: l' => @List.Forall_cons _ P c l' (LintNode_kids_ind c) (all l')
               end) l
        | None => @List.Forall_nil _ P
        end
    end.
End LintNode_induction.

(** ** Definitions used to state the properties *)

(** The sum of the four counters. *)
Definition paths (s : CyclomaticBreakdown) : nat :=
  variants s + booleanProps s + instanceSwaps s + textProps s.

(** The button of the specification's example: two VARIANT properties with
    three and two options, and one BOOLEAN property. *)
Definition example_button : LintNode :=
  with_defs "1:1" "Button" "COMPONENT_SET"
    (<["Size" := mkDef "VARIANT" (Some ["S"; "M"; "L"])]>
       (<["State" := mkDef "VARIANT" (Some ["Default"; "Hover"])]>
          (<["Icon" := mkDef "BOOLEAN" None]> ∅)))
    None.

(** A component with one VARIANT property whose option list is empty. *)
Definition example_no_options : LintNode :=
  with_defs "3:1" "Toggle" "COMPONENT"
    (<["State" := mkDef "VARIANT" (Some [])]> ∅) None.

(** A VARIANT definition with an empty option list. *)
Definition empty_variant (d : PropertyDefinition) : Prop :=
  def_type d = "VARIANT" /\ variantOptions d = Some [].

#[global] Instance empty_variant_dec d : Decision (empty_variant d).
Proof. unfold empty_variant. apply _. Defined.

(** The property definitions one node carries. *)
Definition node_defs (node : LintNode) : list PropertyDefinition :=
  match componentPropertyDefinitions node with
  | Some defs => (map_to_list defs).*2
  | None => []
  end.

(** The components of one subtree, tagged with the page name, in walk
    order. *)
Definition components_of (p : string) (l : list LintNode)
    : list LintComponent :=
  (fun n => mkComponent n p) <$> filter is_component l.

Definition example_set : LintNode :=
  plain "1:1" "Button" "COMPONENT_SET"
    (Some [plain "1:2" "Primary" "COMPONENT"
             (Some [plain "1:3" "Label" "TEXT" None;
                    plain "1:4" "Badge" "COMPONENT" None]);
           plain "1:5" "Guide" "FRAME" None]).

(** A whole number as a node value. *)
Definition px (n : Z) : Qc := Q2Qc (inject_Z n).

(** A card: an auto-layout frame with an orange fill, a shadow and a
    padding, holding a text and a hidden, empty frame. *)
Definition example_card : LintNode :=
  let orange := mkRGBA 1 (Q2Qc (1 # 2)) 0 1 in
  let shade := mkRGBA 0 0 0 (Q2Qc (1 # 4)) in
  mkLintNode "2:1" "Card" "FRAME"
    (Some [mkPaint "SOLID" true (Some orange);
           mkPaint "GRADIENT_LINEAR" true None;
           mkPaint "SOLID" false (Some shade)])
    None
    (Some [mkEffect "DROP_SHADOW" true (Some shade);
           mkEffect "LAYER_BLUR" true None])
    (Some (Num (px 8))) (Some (px 1)) (Some (px 0))
    (Some "HORIZONTAL") (Some "HUG") None
    (Some (px 8)) None None None (Some (px 8))
    (Some "PASS_THROUGH") (Some (mkConstraints "MIN" "MIN")) None None
    (Some [mkLintNode "2:2" "Title" "TEXT"
             None None None None None None (Some "NONE") None None
             None None None None None None None (Some (Num (px 16))) None None;
           plain "2:3" "Spacer" "FRAME" (Some [])]).

(** The volume, spelled as the specification does. *)
Definition spec_volume (vocabulary length : nat) : R :=
  if decide (vocabulary <= 1 \/ length = 0) then 0%R
  else (INR length * log2 (INR vocabulary))%R.

(** The difficulty, spelled as the specification does. *)
Definition spec_difficulty (n1 n2 N2 : nat) : R :=
  if decide (n2 = 0) then 0%R
  else ((INR n1 / 2) * (INR N2 / INR n2))%R.

(** Every element is at least the next one, by [composite]. *)
Definition descending (l : list ComponentComplexityResult) : Prop :=
  forall i a b, l !! i = Some a -> l !! S i = Some b ->
                (composite b <= composite a)%Z.

(** A callback that returns normally whatever it is told, in whatever
    state. *)
Definition never_throws {W} (onProgress : option (@Progress W)) : Prop :=
  match onProgress with
  | Some f => forall msg w, (f msg w).2 = None
  | None => True
  end.

(** The loop without a callback: it depends on the components only. *)
Fixpoint collect (rest : list (Untyped LintComponent))
    (results : list ComponentComplexityResult)
    : Outcome (list ComponentComplexityResult) :=
  match rest with
  | [] => Returns results
  | comp :: rest =>
      match analyze comp with
      | Raises e => Raises e
      | Returns r => collect rest (results ++ [r])
      end
  end.

Definition ge_composite (a b : ComponentComplexityResult) : Prop :=
  (composite b <= composite a)%Z.

(** A callback that appends the message to a log. *)
Definition log_progress : @Progress (list string) :=
  fun msg log => (log ++ [msg], None).

(** A callback that throws whenever it is invoked. *)
Definition throwing_progress : @Progress unit :=
  fun _ w => (w, Some (Thrown "progress sink closed")).

Definition example_components : list LintComponent :=
  [mkComponent example_set "Page 1"; mkComponent example_button "Page 2"].

(** ** The reporters, continued *)

Module Report.
Import Reporters.

Record ComponentScoreStats := mkComponentStats {
  cs_score : Z;
  cs_passed : nat;
  cs_failed : nat;
  cs_total : nat }.

Definition calculateComponentStats (checks : list AuditCheck)
    : ComponentScoreStats :=
  if length checks =? 0 then mkComponentStats 100 0 0 0
  else
    let passed := length (filter (fun c => status c = pass) checks) in
    let failed := length (filter (fun c => status c = fail) checks) in
    let total := length checks in
    let score := Math_round_f64 ((number passed / number total) * 100)%float in
    mkComponentStats score passed failed total.

(** [text.replace(/c/g, by)] for a pattern of one character.  The text is
    its UTF-8 bytes; the characters [escapeHtml] looks for are ASCII and no
    byte of a longer sequence equals one of them. *)
Fixpoint replace_char (c : ascii) (by_ : string) (text : string) : string :=
  match text with
  | EmptyString => EmptyString
  | String a rest =>
      if Ascii.eqb a c then by_ +:+ replace_char c by_ rest
      else String a (replace_char c by_ rest)
  end.

(** The double quote and the line feed. *)
Definition dquote : ascii := ascii_of_nat 34.
Definition newline : ascii := ascii_of_nat 10.

Definition escapeHtml (text : string) : string :=
  replace_char newline "<br>"
    (replace_char dquote "&quot;"
       (replace_char ">"%char "&gt;"
          (replace_char "<"%char "&lt;"
             (replace_char "&"%char "&amp;" text)))).

(** What [escapeHtml] makes of one character. *)
Definition escape_char (a : ascii) : string :=
  if Ascii.eqb a "&"%char then "&amp;"
  else if Ascii.eqb a "<"%char then "&lt;"
  else if Ascii.eqb a ">"%char then "&gt;"
  else if Ascii.eqb a dquote then "&quot;"
  else if Ascii.eqb a newline then "<br>"
  else String a EmptyString.

(** Character by character. *)
Fixpoint escape_each (text : string) : string :=
  match text with
  | EmptyString => EmptyString
  | String a rest => escape_char a +:+ escape_each rest
  end.

(** [c] occurs in [text]. *)
Fixpoint occurs (c : ascii) (text : string) : bool :=
  match text with
  | EmptyString => false
  | String a rest => Ascii.eqb a c || occurs c rest
  end.

Definition compositeLabel (score : Z) : string :=
  if (score <=? 20)%Z then "Simple"
  else if (score <=? 40)%Z then "Moderate"
  else if (score <=? 60)%Z then "Complex"
  else if (score <=? 80)%Z then "Very Complex"
  else "Extremely Complex".

Definition compositeColor (score : Z) : string :=
  if (score <=? 20)%Z then "#22c55e"
  else if (score <=? 40)%Z then "#84cc16"
  else if (score <=? 60)%Z then "#f59e0b"
  else if (score <=? 80)%Z then "#ef4444"
  else "#dc2626".

(** The chips of the scale that the HTML complexity report prints: the
    range named on the chip, its label and its background. *)
Definition scale_chips : list (Z * Z * string * string) :=
  [(0, 20, "Simple", "#22c55e");
   (21, 40, "Moderate", "#84cc16");
   (41, 60, "Complex", "#f59e0b");
   (61, 80, "Very Complex", "#ef4444");
   (81, 100, "Extremely Complex", "#dc2626")]%Z.

(** A string of the console reporter as its UTF-16 code units, the units
    that [length], [repeat] and [slice] count. *)
Definition jsstring : Type := list N.

Definition space : N := 32.
Definition full_block : N := 9608.   (* U+2588 *)
Definition light_shade : N := 9617.  (* U+2591 *)

(** [unit.repeat(count)] for an integer count: a negative count raises a
    RangeError. *)
Definition repeat_unit (u : N) (count : Z) : Outcome jsstring :=
  if (count <? 0)%Z then Raises (Thrown "RangeError: Invalid count value")
  else Returns (replicate (Z.to_nat count) u).

(** An integer as a JS number. *)
Definition number_of_Z (z : Z) : float :=
  if (z <? 0)%Z then PrimFloat.opp (PrimFloat.of_uint63 (Uint63.of_Z (- z)))
  else PrimFloat.of_uint63 (Uint63.of_Z z).

Definition compositeBar (score width : Z) : Outcome jsstring :=
  let filled :=
    Math_round_f64 ((number_of_Z score / 100) * number_of_Z width)%float in
  let empty := (width - filled)%Z in
  match repeat_unit full_block filled with
  | Raises e => Raises e
  | Returns bar =>
      match repeat_unit light_shade empty with
      | Raises e => Raises e
      | Returns rest => Returns (bar ++ rest)
      end
  end.

(** The bar that is right for a score: [filled] blocks out of 20. *)
Definition bar_of (filled : Z) : jsstring :=
  replicate (Z.to_nat filled) full_block
  ++ replicate (Z.to_nat (20 - filled)) light_shade.

(** [str + ' '.repeat(Math.max(0, len - str.length))] *)
Definition pad (str : jsstring) (len : Z) : jsstring :=
  str ++ replicate (Z.to_nat (Z.max 0 (len - Z.of_nat (length str)))) space.

(** The name cell of the summary table of [reportComplexityToConsole]:
    [name.length > nameW - 2 ? name.slice(0, nameW - 5) + '...' : name],
    padded to [nameW]. *)
Definition nameW : Z := 36.

Definition name_cell (componentName : jsstring) : jsstring :=
  let name :=
    if (nameW - 2 <? Z.of_nat (length componentName))%Z
    then take (Z.to_nat (nameW - 5)) componentName ++ [46; 46; 46]%N
    else componentName in
  pad name nameW.

End Report.

(** ** The Halstead metrics in double precision

    The numbers of [computeHalsteadMetrics] are doubles.  The definitions
    above read them as real numbers; the ones below compute as the source
    does, with [Math.log2], whose result the language leaves to the engine,
    as a parameter. *)

Module Binary64.
Import Reporters Report.

(** [Math.round] as a function to doubles: an integer, a zero, an infinity
    and NaN are returned as they are; otherwise the floor of the exact sum
    with one half, which is [-0] for a value from [-0.5] up to [-0]. *)
Definition Math_round (x : float) : float :=
  match Prim2SF x with
  | S754_finite s m e =>
      if (0 <=? e)%Z then x
      else
        let z := Math_round_f64 x in
        if (z =? 0)%Z && s then PrimFloat.opp 0%float else number_of_Z z
  | _ => x
  end.

(** [Math.round(x * 10) / 10] *)
Definition round1 (x : float) : float := (Math_round (x * 10) / 10)%float.

Record HalsteadMetrics := mkHalstead {
  vocabulary : nat;
  length_ : nat;
  volume : float;
  difficulty : float;
  effort : float;
  operators : TokenCount;
  operands : TokenCount }.

Section log.
Context (Math_log2 : float -> float).

Definition computeHalsteadMetrics (root : LintNode) : HalsteadMetrics :=
  let s := Halstead.walk root (Halstead.mkBags [] []) in
  let n1 := length (remove_dups (Halstead.operatorBag s)) in
  let n2 := length (remove_dups (Halstead.operandBag s)) in
  let N1 := length (Halstead.operatorBag s) in
  let N2 := length (Halstead.operandBag s) in
  let vocabulary := n1 + n2 in
  let length := N1 + N2 in
  let volume := if (0 <? length) && (0 <? vocabulary)
                then (number length * Math_log2 (number vocabulary))%float
                else 0%float in
  let difficulty := if 0 <? n2
                    then ((number n1 / 2) * (number N2 / number n2))%float
                    else 0%float in
  let effort := (difficulty * volume)%float in
  mkHalstead vocabulary length (round1 volume) (round1 difficulty)
             (round1 effort) (mkCount n1 N1) (mkCount n2 N2).

End log.

End Binary64.

(** ** The command line *)

Module Cli.
Import Report.

(** [s.endsWith(suffix)] *)
Definition ends_with (suffix s : string) : bool :=
  bool_decide (String.list_ascii_of_string suffix
                 `suffix_of` String.list_ascii_of_string s).

(** [s.startsWith('-')] *)
Definition starts_with_dash (s : string) : bool :=
  match s with
  | String a _ => Ascii.eqb a "-"%char
  | EmptyString => false
  end.

(** [s.split(c)]: the pieces between the occurrences of [c]; there is
    always at least one piece. *)
Fixpoint split_on (c : ascii) (s : string) : list string :=
  match s with
  | EmptyString => [EmptyString]
  | String a rest =>
      if Ascii.eqb a c then EmptyString :: split_on c rest
      else match split_on c rest with
           | piece :: pieces => String a piece :: pieces
           | [] => [String a EmptyString]
           end
  end.

(** [url.replace(/\\([?=&])/g, '$1')]: a backslash in front of [?], [=] or
    [&] is dropped. *)
Fixpoint strip_escapes (url : string) : string :=
  match url with
  | EmptyString => EmptyString
  | String a rest =>
      match rest with
      | String b rest' =>
          if Ascii.eqb a "\"%char
             && (Ascii.eqb b "?"%char || Ascii.eqb b "="%char
                 || Ascii.eqb b "&"%char)
          then String b (strip_escapes rest')
          else String a (strip_escapes rest)
      | EmptyString => String a EmptyString
      end
  end.

(** What [parseFigmaUrl] reads of a parsed URL: [hostname], [pathname] and
    [searchParams.get('node-id')]. *)
Record URL := mkURL {
  hostname : string;
  pathname : string;
  node_id_param : option string }.

Record FigmaUrlParts := mkParts {
  fileKey : string;
  nodeId : option string }.

(** [nodeId.replace(/:/g, '-')] and [rawNodeId.replace(/-/g, ':')] *)
Definition hyphenate (nodeId : string) : string :=
  replace_char ":"%char "-" nodeId.

Definition colonize (rawNodeId : string) : string :=
  replace_char "-"%char ":" rawNodeId.

Definition buildFigmaUrl (fileKey nodeId : string) : string :=
  "https://www.figma.com/design/" +:+ fileKey +:+ "?node-id="
    +:+ hyphenate nodeId.

Section url_parser.
(** [new URL(text)] of the platform: the parsed URL, or [None] when the
    constructor throws. *)
Context (new_URL : string -> option URL).

Definition parseFigmaUrl (url : string) : Outcome FigmaUrlParts :=
  let cleaned := strip_escapes url in
  match new_URL cleaned with
  | None => Raises (Thrown ("Invalid URL: " +:+ url))
  | Some parsed =>
      if negb (ends_with "figma.com" (hostname parsed))
      then Raises (Thrown ("Not a Figma URL: " +:+ url))
      else
        let segments :=
          filter (fun s => s <> EmptyString)
                 (split_on "/"%char (pathname parsed)) in
        let no_key :=
          Raises (Thrown
            "Could not extract file key from URL. Expected /design/<key> or /file/<key>.") in
        match list_find (fun s => s = "design" \/ s = "file") segments with
        | None => no_key
        | Some (prefixIndex, _) =>
            match segments !! (prefixIndex + 1) with
            | None => no_key
            | Some key =>
                if String.eqb key "" then no_key
                else
                  let nodeId :=
                    match node_id_param parsed with
                    | Some raw =>
                        if String.eqb raw "" then None
                        else Some (colonize raw)
                    | None => None
                    end in
                  Returns (mkParts key nodeId)
            end
        end
  end.

Record CliArgs := mkArgs {
  arg_fileKey : string;
  arg_url : string;
  arg_nodeId : string;
  arg_token : string;
  arg_output : option string;
  arg_format : string;
  arg_auditType : string;
  arg_help : bool }.

(** The flags that take the next argument as their value ([i++]). *)
Definition takes_value (arg : string) : bool :=
  bool_decide (arg ∈ ["--file-key"; "-f"; "--url"; "-u"; "--node-id"; "-n";
                      "--token"; "-t"; "--output"; "-o"; "--format";
                      "--audit-type"]).

(** The body of the [switch (arg)]; [next] is [argv[i + 1]]. *)
Definition step (arg : string) (next : option string) (a : CliArgs)
    : CliArgs :=
  let value := default "" next in
  if bool_decide (arg = "--file-key" \/ arg = "-f") then
    mkArgs value (arg_url a) (arg_nodeId a) (arg_token a) (arg_output a)
           (arg_format a) (arg_auditType a) (arg_help a)
  else if bool_decide (arg = "--url" \/ arg = "-u") then
    mkArgs (arg_fileKey a) value (arg_nodeId a) (arg_token a) (arg_output a)
           (arg_format a) (arg_auditType a) (arg_help a)
  else if bool_decide (arg = "--node-id" \/ arg = "-n") then
    mkArgs (arg_fileKey a) (arg_url a) value (arg_token a) (arg_output a)
           (arg_format a) (arg_auditType a) (arg_help a)
  else if bool_decide (arg = "--token" \/ arg = "-t") then
    mkArgs (arg_fileKey a) (arg_url a) (arg_nodeId a) value (arg_output a)
           (arg_format a) (arg_auditType a) (arg_help a)
  else if bool_decide (arg = "--output" \/ arg = "-o") then
    mkArgs (arg_fileKey a) (arg_url a) (arg_nodeId a) (arg_token a)
           (Some value) (arg_format a) (arg_auditType a) (arg_help a)
  else if bool_decide (arg = "--format") then
    mkArgs (arg_fileKey a) (arg_url a) (arg_nodeId a) (arg_token a)
           (arg_output a) (default "console" next) (arg_auditType a)
           (arg_help a)
  else if bool_decide (arg = "--audit-type") then
    mkArgs (arg_fileKey a) (arg_url a) (arg_nodeId a) (arg_token a)
           (arg_output a) (arg_format a) (default "system" next) (arg_help a)
  else if bool_decide (arg = "--help" \/ arg = "-h") then
    mkArgs (arg_fileKey a) (arg_url a) (arg_nodeId a) (arg_token a)
           (arg_output a) (arg_format a) (arg_auditType a) true
  else if negb (starts_with_dash arg) && String.eqb (arg_fileKey a) "" then
    mkArgs arg (arg_url a) (arg_nodeId a) (arg_token a) (arg_output a)
           (arg_format a) (arg_auditType a) (arg_help a)
  else a.

(** The [for] loop over [argv], from the argument at hand on. *)
Fixpoint scan (argv : list string) (a : CliArgs) : CliArgs :=
  match argv with
  | [] => a
  | arg :: rest =>
      match rest with
      | [] => step arg None a
      | next :: after =>
          if takes_value arg then scan after (step arg (Some next) a)
          else scan rest (step arg (Some next) a)
      end
  end.

(** The two steps after the loop that do not throw: the format is inferred
    from the extension of the output file while it is still [console]. *)
Definition infer_format (a : CliArgs) : CliArgs :=
  match arg_output a with
  | Some out =>
      if negb (String.eqb out "") && String.eqb (arg_format a) "console" then
        if ends_with ".json" out then
          mkArgs (arg_fileKey a) (arg_url a) (arg_nodeId a) (arg_token a)
                 (arg_output a) "json" (arg_auditType a) (arg_help a)
        else if ends_with ".html" out || ends_with ".htm" out then
          mkArgs (arg_fileKey a) (arg_url a) (arg_nodeId a) (arg_token a)
                 (arg_output a) "html" (arg_auditType a) (arg_help a)
        else a
      else a
  | None => a
  end.

(** [parseArgs(argv)]; the two environment variables are arguments. *)
Definition parseArgs (FIGMA_FILE_KEY FIGMA_PERSONAL_ACCESS_TOKEN : option string)
    (argv : list string) : Outcome CliArgs :=
  let a := mkArgs (default "" FIGMA_FILE_KEY) "" ""
                  (default "" FIGMA_PERSONAL_ACCESS_TOKEN)
                  None "console" "system" false in
  let a := scan (drop 2 argv) a in
  if String.eqb (arg_url a) "" then Returns (infer_format a)
  else
    match parseFigmaUrl (arg_url a) with
    | Raises e => Raises e
    | Returns parts =>
        let key := if String.eqb (arg_fileKey a) "" then fileKey parts
                   else arg_fileKey a in
        let node := if String.eqb (arg_nodeId a) ""
                    then match nodeId parts with
                         | Some n => if String.eqb n "" then arg_nodeId a else n
                         | None => arg_nodeId a
                         end
                    else arg_nodeId a in
        Returns (infer_format
                   (mkArgs key (arg_url a) node (arg_token a) (arg_output a)
                           (arg_format a) (arg_auditType a) (arg_help a)))
    end.

End url_parser.

End Cli.

(** ** Definitions used to state the further properties *)

(** The property definitions carried by the nodes of a subtree. *)
Definition all_defs (root : LintNode) : list PropertyDefinition :=
  flat_map (fun n => match componentPropertyDefinitions n with
                     | Some defs => (map_to_list defs).*2
                     | None => []
                     end) (subtree root).

(** The definitions of one kind. *)
Definition of_kind (k : string) (ds : list PropertyDefinition)
    : list PropertyDefinition :=
  filter (fun d => def_type d = k) ds.

(** The options a VARIANT definition counts for. *)
Definition option_count (d : PropertyDefinition) : nat :=
  match variantOptions d with
  | Some opts => length opts
  | None => 1
  end.

(** Field-wise sum of two breakdowns. *)
Definition plus_breakdown (a b : CyclomaticBreakdown) : CyclomaticBreakdown :=
  mkBreakdown (variants a + variants b) (booleanProps a + booleanProps b)
              (instanceSwaps a + instanceSwaps b) (textProps a + textProps b).

(** What a list of definitions adds to the four counters. *)
Definition tally (ds : list PropertyDefinition) : CyclomaticBreakdown :=
  mkBreakdown (sum_list (option_count <$> of_kind "VARIANT" ds))
              (length (of_kind "BOOLEAN" ds))
              (length (of_kind "INSTANCE_SWAP" ds))
              (length (of_kind "TEXT" ds)).

(** The results with composite score [k], in list order. *)
Definition with_composite (k : Z) (l : list ComponentComplexityResult)
    : list ComponentComplexityResult :=
  filter (fun r => composite r = k) l.

(** The progress messages for the components [cs] of a batch of [len]
    components, the first of them at index [i]. *)
Definition messages_from (i len : nat) (cs : list LintComponent)
    : list string :=
  imap (fun j c => progress_message c (i + j) len) cs.

(** The state of what a callback writes to after it was told [msgs]. *)
Definition told {W} (f : @Progress W) (w : W) (msgs : list string) : W :=
  foldl (fun w msg => (f msg w).1) w msgs.



(** A stand-in for the platform's parser, for the examples: whatever the
    text, it reads the deep link of node 42:100 of the file abc123. *)
Definition example_new_URL (text : string) : option Cli.URL :=
  Some (Cli.mkURL "www.figma.com" "/design/abc123" (Some "42-100")).

(** The arguments before the loop over [argv] starts. *)
Definition initial_args (FIGMA_FILE_KEY FIGMA_PERSONAL_ACCESS_TOKEN
    : option string) : Cli.CliArgs :=
  Cli.mkArgs (default "" FIGMA_FILE_KEY) "" ""
             (default "" FIGMA_PERSONAL_ACCESS_TOKEN)
             None "console" "system" false.

(** * Properties *)

(** ** Structural metrics *)

Lemma subtree_kids n : subtree n = n :: flat_map subtree (kids n).
Proof. destruct n as [? ? ? ? ? ? ? ? ? ? ? ? ? ? ? ? ? ? ? ? ? [cs|]]; done. Qed.

Lemma nodes_at_kids n d :
  nodes_at n d = (n, d) :: flat_map (fun c => nodes_at c (d + 1)) (kids n).
Proof. destruct n as [? ? ? ? ? ? ? ? ? ? ? ? ? ? ? ? ? ? ? ? ? [cs|]]; done. Qed.

Lemma nodes_at_subtree n : forall d, (nodes_at n d).*1 = subtree n.
Proof.
  induction n as [n IH] using LintNode_kids_ind; intros d.
  rewrite nodes_at_kids, subtree_kids, fmap_cons. f_equal.
  induction IH as [|c cs Hc _ IHcs]; simpl; [done|].
  by rewrite fmap_app, Hc, IHcs.
Qed.

(** Decide the comparisons of the running maxima and settle the [max]. *)
Ltac settle_max :=
  repeat match goal with
         | |- context [(?a <? ?b)] =>
             destruct (Nat.ltb_spec a b); cbn -[Nat.ltb Nat.max] in *
         end;
  repeat match goal with
         | |- context [?a `max` ?b] =>
             first [rewrite (Nat.max_l a b) by lia
                   |rewrite (Nat.max_r a b) by lia]
         end.

Lemma walk_structural_unfold n d s :
  Structural.walk n d s =
  foldl (fun s c => Structural.walk c (d + 1) s)
        (visit_structural s (n, d)) (kids n).
Proof.
  destruct n as [? ? ? ? ? ? ? ? ? ? ? ? ? ? ? ? ? ? ? ? ? [[|c cs]|]];
    unfold visit_structural, kids; cbn -[Nat.ltb Nat.max];
    settle_max; reflexivity.
Qed.

(** The walk is a left fold of [visit_structural] over the subtree in
    depth-first order. *)
Lemma walk_structural_fold n : forall d s,
  Structural.walk n d s = foldl visit_structural s (nodes_at n d).
Proof.
  induction n as [n IH] using LintNode_kids_ind; intros d s.
  rewrite walk_structural_unfold, nodes_at_kids. simpl.
  generalize (visit_structural s (n, d)) as s'.
  induction IH as [|c cs Hc _ IHcs]; intros s'; simpl; [done|].
  by rewrite foldl_app, <- Hc, IHcs.
Qed.

Section structural_fold.
Implicit Types (s : StructuralState) (l : list (LintNode * nat)).

Lemma fold_nodeCount l : forall s,
  ss_nodeCount (foldl visit_structural s l) = ss_nodeCount s + length l.
Proof.
  induction l as [|p l IH]; intros s; simpl; [lia|]. rewrite IH. simpl. lia.
Qed.

Lemma fold_leafCount l : forall s,
  ss_leafCount (foldl visit_structural s l) =
  ss_leafCount s + length (filter (fun n => kids n = []) l.*1).
Proof.
  induction l as [|[n d] l IH]; intros s; simpl; [lia|].
  rewrite IH, filter_cons. simpl.
  destruct (kids n) as [|c cs] eqn:E; simpl; rewrite ?Nat.add_succ_r; done.
Qed.

Lemma fold_maxDepth l : forall s,
  ss_maxDepth (foldl visit_structural s l) = ss_maxDepth s `max` max_list l.*2.
Proof.
  induction l as [|p l IH]; intros s; csimpl; [lia|].
  rewrite IH. csimpl. unfold id. lia.
Qed.

Lemma fold_maxFanOut l : forall s,
  ss_maxFanOut (foldl visit_structural s l) =
  ss_maxFanOut s `max` max_list ((fun n => length (kids n)) <$> l.*1).
Proof.
  induction l as [|p l IH]; intros s; csimpl; [lia|].
  rewrite IH. csimpl. unfold id. lia.
Qed.

Lemma fold_typeDistribution l : forall s,
  ss_typeDistribution (foldl visit_structural s l) =
  foldl (fun m t => bump t m) (ss_typeDistribution s) (node_type <$> l.*1).
Proof.
  induction l as [|p l IH]; intros s; simpl; [done|]. by rewrite IH.
Qed.

End structural_fold.

(** *** The histogram *)

Lemma histogram_total_insert (m : gmap string nat) t c :
  m !! t = None -> histogram_total (<[t := c]> m) = c + histogram_total m.
Proof.
  intros Hm. unfold histogram_total.
  rewrite map_fold_insert_L; [done| |done]. intros; lia.
Qed.

Lemma histogram_total_tick (m : gmap string nat) t :
  histogram_total (tick t m) = S (histogram_total m).
Proof.
  unfold tick. destruct (m !! t) as [c|] eqn:E; simpl.
  - rewrite <- (insert_delete_eq m).
    rewrite histogram_total_insert by apply lookup_delete_eq.
    rewrite <- (insert_delete_id m t c) at 2 by done.
    rewrite histogram_total_insert by apply lookup_delete_eq. lia.
  - by rewrite histogram_total_insert.
Qed.

Lemma histogram_total_ticks ts : forall m : gmap string nat,
  histogram_total (foldl (fun m t => tick t m) m ts) =
  histogram_total m + length ts.
Proof.
  induction ts as [|t ts IH]; intros m; simpl; [lia|].
  rewrite IH, histogram_total_tick. lia.
Qed.

Lemma filter_eq_absent (t : string) ts : t ∉ ts -> filter (eq t) ts = [].
Proof.
  induction ts as [|u ts IH]; intros Hnotin; [done|].
  rewrite filter_cons_False, IH; [done| |]; set_solver.
Qed.

Lemma lookup_ticks ts t : forall m : gmap string nat,
  foldl (fun m t => tick t m) m ts !! t =
  if decide (t ∈ ts)
  then Some (default 0 (m !! t) + length (filter (eq t) ts))
  else m !! t.
Proof.
  induction ts as [|u ts IH]; intros m; simpl; [done|].
  rewrite IH, filter_cons. unfold tick.
  destruct (decide (t = u)) as [->|Hne].
  - rewrite lookup_insert_eq, (decide_True (P := u ∈ u :: ts)) by left.
    simpl. destruct (decide (u ∈ ts)) as [Hin|Hnotin]; f_equal; [lia|].
    rewrite filter_eq_absent by done. simpl. lia.
  - rewrite lookup_insert_ne by done.
    destruct (decide (t ∈ ts)), (decide (t ∈ u :: ts)) as [Hin|Hnotin];
      try done.
    + exfalso. apply Hnotin. by right.
    + apply elem_of_cons in Hin as [?|?]; done.
Qed.

(** Under plain tags the histogram object holds counts only, and is
    counted up like a map of numbers. *)
Lemma bump_plain t (m : gmap string nat) :
  plain_tag t -> bump t (Count <$> m) = Count <$> tick t m.
Proof.
  intros [Hproto Hmethod]. unfold bump, tick.
  rewrite lookup_fmap, fmap_insert.
  destruct (m !! t) as [n|]; simpl; [done|].
  by rewrite decide_False, decide_False by done.
Qed.

Lemma bumps_plain ts : forall m : gmap string nat,
  Forall plain_tag ts ->
  foldl (fun m t => bump t m) (Count <$> m) ts
  = Count <$> foldl (fun m t => tick t m) m ts.
Proof.
  induction ts as [|t ts IH]; intros m Hts; simpl; [done|].
  inversion Hts; subst. rewrite bump_plain by done. by apply IH.
Qed.

Lemma count_type_filter t (l : list LintNode) :
  length (filter (eq t) (node_type <$> l)) = count_type t l.
Proof.
  unfold count_type. induction l as [|n l IH]; [done|].
  rewrite fmap_cons, !filter_cons.
  destruct (decide (t = node_type n)), (decide (node_type n = t));
    simpl; congruence.
Qed.

Lemma max_list_app (l k : list nat) :
  max_list (l ++ k) = max_list l `max` max_list k.
Proof. induction l as [|x l IH]; simpl; [done|]. rewrite IH. lia. Qed.

Lemma height_kids n :
  height n = foldr (fun c m => S (height c) `max` m) 0 (kids n).
Proof. destruct n as [? ? ? ? ? ? ? ? ? ? ? ? ? ? ? ? ? ? ? ? ? [cs|]]; done. Qed.

Lemma max_depth_height n : forall d, max_list (nodes_at n d).*2 = d + height n.
Proof.
  induction n as [n IH] using LintNode_kids_ind; intros d.
  rewrite nodes_at_kids, height_kids, fmap_cons. csimpl. unfold id.
  induction IH as [|c cs Hc _ IHcs]; csimpl; [lia|].
  rewrite fmap_app, max_list_app, Hc. lia.
Qed.

Lemma computeStructuralMetrics_nodeCount n :
  nodeCount (computeStructuralMetrics n) = length (subtree n).
Proof.
  unfold computeStructuralMetrics. simpl.
  rewrite walk_structural_fold, fold_nodeCount. simpl.
  by rewrite <- (nodes_at_subtree n 0), length_fmap.
Qed.

Lemma length_flat_map_sum {A B} (f : A -> list B) (l : list A) :
  length (flat_map f l) = sum_list ((fun x => length (f x)) <$> l).
Proof.
  induction l as [|x l IH]; csimpl; [done|]. by rewrite length_app, IH.
Qed.

(** C8, as stated, fails for a layer whose type tag is [__proto__]: the
    histogram object stays empty, so it does not hold the tag with its
    count 1, and its counts do not add up to [nodeCount = 1].  For a layer
    whose type tag is [constructor] the object holds a string under the
    tag, not a count. *)
Lemma inherited_tag_counterexample :
  let root := plain "9:1" "Layer" "__proto__" None in
  let m := computeStructuralMetrics root in
  count_type "__proto__" (subtree root) = 1
  /\ nodeCount m = 1
  /\ typeDistribution m = ∅
  /\ ~ counts_by_type root (nodeCount m) (typeDistribution m)
  /\ typeDistribution
       (computeStructuralMetrics (plain "9:2" "Layer" "constructor" None))
     = {[ "constructor" := Spoiled "constructor" 1 ]}.
Proof.
  cbv zeta. split; [by vm_compute|]. split; [by vm_compute|].
  assert (typeDistribution
            (computeStructuralMetrics (plain "9:1" "Layer" "__proto__" None))
          = ∅) as Hempty by by vm_compute.
  split; [exact Hempty|]. split; [|by vm_compute].
  intros (counts & Hcounts & Hlookup & _). rewrite Hempty in Hcounts.
  symmetry in Hcounts. apply fmap_empty_inv in Hcounts. subst counts.
  specialize (Hlookup "__proto__"). by vm_compute in Hlookup.
Qed.

(** C8, amended.  The structural metrics of a node tree: [nodeCount] is
    one more than the sum of the [nodeCount]s of the direct children;
    [maxDepth] is the largest depth of a node, the root being at depth 0
    (that is, the height of the tree); [leafCount] counts the nodes without
    children; [maxFanOut] is the largest number of children of a single
    node; and, provided that no type tag of the tree is the name of a
    property that every object inherits, the histogram maps each type tag
    that occurs to the number of nodes that carry it and holds no other
    key, and [nodeCount] is the sum of the counts of the histogram. *)
Theorem structural_metrics_spec (root : LintNode) :
  let m := computeStructuralMetrics root in
  nodeCount m =
    1 + sum_list ((fun c => nodeCount (computeStructuralMetrics c)) <$> kids root)
  /\ maxDepth m = max_list (nodes_at root 0).*2
  /\ maxDepth m = height root
  /\ leafCount m = length (filter (fun n => kids n = []) (subtree root))
  /\ maxFanOut m = max_list ((fun n => length (kids n)) <$> subtree root)
  /\ (Forall (fun n => plain_tag (node_type n)) (subtree root) ->
      counts_by_type root (nodeCount m) (typeDistribution m)).
Proof.
  assert (Hdepth : maxDepth (computeStructuralMetrics root)
                   = max_list (nodes_at root 0).*2).
  { unfold computeStructuralMetrics. simpl.
    by rewrite walk_structural_fold, fold_maxDepth. }
  cbv zeta. split; [|split; [|split; [|split; [|split]]]].
  - rewrite computeStructuralMetrics_nodeCount, subtree_kids. cbn [length].
    rewrite length_flat_map_sum. apply (f_equal S). f_equal.
    apply list_fmap_ext. intros _ c _.
    by rewrite computeStructuralMetrics_nodeCount.
  - exact Hdepth.
  - by rewrite Hdepth, max_depth_height.
  - unfold computeStructuralMetrics. simpl.
    by rewrite walk_structural_fold, fold_leafCount, nodes_at_subtree.
  - unfold computeStructuralMetrics. simpl.
    by rewrite walk_structural_fold, fold_maxFanOut, nodes_at_subtree.
  - intros Hplain.
    exists (foldl (fun m t => tick t m) ∅ (node_type <$> subtree root)).
    split; [|split].
    + unfold computeStructuralMetrics. cbn [typeDistribution].
      rewrite walk_structural_fold, fold_typeDistribution, nodes_at_subtree.
      cbn [ss_typeDistribution]. rewrite <- bumps_plain, fmap_empty; [done|].
      by apply Forall_fmap.
    + intros t. rewrite lookup_ticks, lookup_empty, count_type_filter. simpl.
      destruct (decide (t ∈ node_type <$> subtree root)) as [Hin|Hnotin].
      * rewrite decide_False; [done|].
        rewrite <- count_type_filter. intros Hlen.
        apply length_zero_iff_nil in Hlen.
        by apply (filter_nil_not_elem_of _ _ t) in Hlen.
      * rewrite decide_True; [done|].
        by rewrite <- count_type_filter, filter_eq_absent.
    + rewrite computeStructuralMetrics_nodeCount.
      rewrite histogram_total_ticks, length_fmap.
      unfold histogram_total. by rewrite map_fold_empty.
Qed.

Lemma structural_metrics_witness :
  counts_by_type example_set
    (nodeCount (computeStructuralMetrics example_set))
    (typeDistribution (computeStructuralMetrics example_set)).
Proof.
  apply (proj2 (proj2 (proj2 (proj2 (proj2
           (structural_metrics_spec example_set)))))).
  apply (bool_decide_unpack _). by vm_compute.
Defined.

(** ** Cyclomatic score *)

Lemma eqb_decide (a b : string) :
  String.eqb a b = bool_decide (a = b).
Proof.
  destruct (String.eqb_spec a b).
  - by rewrite bool_decide_eq_true_2.
  - by rewrite bool_decide_eq_false_2.
Qed.

Lemma visit_paths def s :
  paths (Cyclomatic.visit def s) = paths s + def_paths def.
Proof.
  unfold Cyclomatic.visit, def_paths, paths. rewrite !eqb_decide.
  repeat (case_bool_decide; [rewrite decide_True by done; simpl; lia|
                             rewrite decide_False by done]).
  lia.
Qed.

Lemma visit_all_paths defs s :
  paths (Cyclomatic.visit_all defs s) =
  paths s + sum_list (def_paths <$> (map_to_list defs).*2).
Proof.
  unfold Cyclomatic.visit_all. rewrite map_fold_foldr.
  induction (map_to_list defs) as [|[k def] l IH]; csimpl; [lia|].
  rewrite visit_paths, IH. lia.
Qed.

Lemma walk_cyclomatic_unfold n s :
  Cyclomatic.walk n s =
  foldl (fun s c => Cyclomatic.walk c s)
        (match componentPropertyDefinitions n with
         | Some defs => Cyclomatic.visit_all defs s
         | None => s
         end) (kids n).
Proof. destruct n as [? ? ? ? ? ? ? ? ? ? ? ? ? ? ? ? ? ? ? ? ? [cs|]]; done. Qed.

Lemma walk_cyclomatic_paths n : forall s,
  paths (Cyclomatic.walk n s) = paths s + sum_list (node_paths <$> subtree n).
Proof.
  induction n as [n IH] using LintNode_kids_ind; intros s.
  rewrite walk_cyclomatic_unfold, subtree_kids, fmap_cons. csimpl.
  assert (Hroot : paths (match componentPropertyDefinitions n with
                         | Some defs => Cyclomatic.visit_all defs s
                         | None => s
                         end) = paths s + node_paths n).
  { unfold node_paths. destruct (componentPropertyDefinitions n).
    - apply visit_all_paths.
    - lia. }
  revert Hroot. generalize (match componentPropertyDefinitions n with
                            | Some defs => Cyclomatic.visit_all defs s
                            | None => s
                            end) as s'.
  generalize (node_paths n) as k.
  induction IH as [|c cs Hc _ IHcs]; intros k s' Hs'; csimpl; [lia|].
  rewrite fmap_app, sum_list_with_app.
  rewrite (IHcs (k + sum_list (node_paths <$> subtree c))); [lia|].
  rewrite Hc. lia.
Qed.

Lemma def_paths_spec d : ~ empty_variant d -> def_paths d = spec_def_paths d.
Proof.
  unfold empty_variant, def_paths, spec_def_paths. intros Hd.
  destruct (decide (def_type d = "VARIANT")) as [Hv|]; [|done].
  destruct (variantOptions d) as [[|opt opts]|]; [|done..].
  by destruct Hd.
Qed.

Lemma node_paths_spec n :
  Forall (fun d => ~ empty_variant d) (node_defs n) ->
  node_paths n = spec_node_paths n.
Proof.
  unfold node_defs, node_paths, spec_node_paths.
  destruct (componentPropertyDefinitions n) as [defs|]; [|done].
  induction 1 as [|d ds Hd _ IH]; csimpl; [done|].
  by rewrite IH, def_paths_spec.
Qed.

(** C1, as stated, fails for a VARIANT property whose option list is
    empty: it declares no options, so it should contribute 1, and the
    component should score 2; [variantOptions?.length ?? 1] takes the
    length 0 of the list, and the component scores 1. *)
Lemma empty_options_counterexample :
  score (computeCyclomaticMetrics example_no_options) = 1
  /\ spec_cyclomatic example_no_options = 2
  /\ score (computeCyclomaticMetrics example_no_options)
     <> spec_cyclomatic example_no_options.
Proof. by vm_compute. Qed.

(** C1, amended.  The cyclomatic score is 1 plus the sum, over all nodes of
    the subtree and all property definitions they carry, of: the length of
    the option list of a VARIANT property, 1 when it carries no option list
    (and 0 when the list is empty), and 1 for a BOOLEAN, an INSTANCE_SWAP
    or a TEXT property.  Unless some VARIANT property has an empty option
    list, that is the score as the specification words it.  The example
    button scores 7, and a component without property definitions scores
    1. *)
Theorem cyclomatic_score_spec (root : LintNode) :
  score (computeCyclomaticMetrics root)
    = 1 + sum_list (node_paths <$> subtree root)
  /\ (Forall (fun n => Forall (fun d => ~ empty_variant d) (node_defs n))
             (subtree root) ->
      score (computeCyclomaticMetrics root) = spec_cyclomatic root)
  /\ score (computeCyclomaticMetrics example_button) = 7
  /\ ((forall n, n ∈ subtree root ->
         componentPropertyDefinitions n = None
         \/ componentPropertyDefinitions n = Some ∅) ->
      score (computeCyclomaticMetrics root) = 1).
Proof.
  assert (Hscore : score (computeCyclomaticMetrics root)
                   = 1 + sum_list (node_paths <$> subtree root)).
  { unfold computeCyclomaticMetrics. cbn [score].
    pose proof (walk_cyclomatic_paths root (mkBreakdown 0 0 0 0)) as H.
    unfold paths in H. simpl in H. lia. }
  split; [exact Hscore|]. split; [|split; [by vm_compute|]].
  - intros Hnone. rewrite Hscore. unfold spec_cyclomatic. f_equal. f_equal.
    apply list_fmap_ext. intros i n Hn. apply node_paths_spec.
    apply (proj1 (Forall_lookup _ _) Hnone i n Hn).
  - intros Hnone. rewrite Hscore. clear Hscore.
    assert (sum_list (node_paths <$> subtree root) = 0) as ->; [|done].
    induction (subtree root) as [|n l IH]; [done|]. csimpl.
    rewrite IH by (intros; apply Hnone; by right).
    destruct (Hnone n) as [Hn|Hn]; [by left| |]; unfold node_paths;
      rewrite Hn; [done|]. by rewrite map_to_list_empty.
Qed.

Lemma cyclomatic_score_witness :
  score (computeCyclomaticMetrics example_button)
    = spec_cyclomatic example_button
  /\ score (computeCyclomaticMetrics (plain "1:2" "Icon" "COMPONENT" None)) = 1.
Proof.
  split.
  - apply (proj1 (proj2 (cyclomatic_score_spec _))).
    apply (bool_decide_unpack _). by vm_compute.
  - apply (proj2 (proj2 (proj2 (cyclomatic_score_spec _)))).
    intros n Hn. apply list_elem_of_singleton in Hn. subst n. by left.
Defined.

(** ** Component discovery *)

Lemma walk_discovery_unfold n p acc :
  Discovery.walk n p acc =
  foldl (fun acc c => Discovery.walk c p acc)
        (if decide (is_component n) then acc ++ [mkComponent n p] else acc)
        (kids n).
Proof.
  assert (String.eqb (node_type n) "COMPONENT"
          || String.eqb (node_type n) "COMPONENT_SET"
          = bool_decide (is_component n)) as Htest.
  { rewrite !eqb_decide. unfold is_component.
    repeat case_bool_decide; simpl; try reflexivity; tauto. }
  destruct n as [? ? ? ? ? ? ? ? ? ? ? ? ? ? ? ? ? ? ? ? ? [cs|]];
    unfold kids; simpl in *; rewrite Htest;
    destruct (decide (is_component _));
    rewrite ?bool_decide_eq_true_2, ?bool_decide_eq_false_2 by done; done.
Qed.

Lemma walk_discovery_spec n p : forall acc,
  Discovery.walk n p acc = acc ++ components_of p (subtree n).
Proof.
  induction n as [n IH] using LintNode_kids_ind; intros acc.
  rewrite walk_discovery_unfold, subtree_kids. unfold components_of.
  rewrite filter_cons.
  assert (Hkids : forall acc',
    foldl (fun acc c => Discovery.walk c p acc) acc' (kids n)
    = acc' ++ components_of p (flat_map subtree (kids n))).
  { induction IH as [|c cs Hc _ IHcs]; intros acc'; csimpl.
    - unfold components_of. by rewrite app_nil_r.
    - rewrite IHcs, Hc. unfold components_of.
      by rewrite filter_app, fmap_app, app_assoc. }
  rewrite Hkids. unfold components_of.
  destruct (decide (is_component n)); csimpl; [|done].
  by rewrite <- app_assoc.
Qed.

(** C10.  [findComponents] returns, page after page, exactly the nodes of
    type COMPONENT or COMPONENT_SET of the page's forest, each with the name
    of its page, in depth-first order with children in document order.  The
    walk goes on below a match, so a COMPONENT inside a COMPONENT_SET or
    inside another COMPONENT is returned as an entry of its own. *)
Theorem findComponents_spec (pages : list LintPage) :
  findComponents pages
    = flat_map (fun page =>
                  components_of (page_name page)
                                (flat_map subtree (page_children page)))
               pages
  /\ (node <$> findComponents [mkPage "Page 1" [example_set]])
     = [example_set;
        plain "1:2" "Primary" "COMPONENT"
          (Some [plain "1:3" "Label" "TEXT" None;
                 plain "1:4" "Badge" "COMPONENT" None]);
        plain "1:4" "Badge" "COMPONENT" None].
Proof.
  split; [|by vm_compute].
  unfold findComponents.
  assert (Hgen : forall acc,
    foldl (fun components page =>
             foldl (fun components child =>
                      Discovery.walk child (page_name page) components)
                   components (page_children page)) acc pages
    = acc ++ flat_map (fun page =>
                         components_of (page_name page)
                           (flat_map subtree (page_children page))) pages).
  { induction pages as [|page pages IH]; intros acc; csimpl.
    - by rewrite app_nil_r.
    - rewrite IH, app_assoc. f_equal.
      generalize (page_children page) as l. clear.
      intros l. revert acc.
      induction l as [|c l IHl]; intros acc; csimpl.
      + unfold components_of. by rewrite app_nil_r.
      + rewrite IHl, walk_discovery_spec. unfold components_of.
        by rewrite filter_app, fmap_app, app_assoc. }
  apply (Hgen []).
Qed.

(** ** Audit score helper *)

Module ReportersFacts.
Import Reporters.

Lemma pass_fail_partition (checks : list AuditCheck) :
  length (filter (fun c => status c = pass) checks)
  + length (filter (fun c => status c = fail) checks)
  = length checks.
Proof.
  induction checks as [|c checks IH]; [done|].
  rewrite !filter_cons. destruct (status c); simpl; lia.
Qed.

(** C6.  The score is meant to be [round(100 × passed/total)]; on forty
    checks of which twenty-three pass that is [round(57.5) = 58], yet the
    helper returns 57.  It divides first: the double nearest to 23/40 lies
    below 0.575 and its product with 100 is the double just below 57.5.
    Multiplying before dividing gives 57.5 exactly, and 58. *)
Theorem audit_score_23_of_40 :
  let st := calculateAuditStats checks_23_of_40 in
  passed st = 23 /\ failed st = 17 /\ total st = 40
  /\ exact_percent (passed st) (total st) = 58%Z
  /\ score st = 57%Z
  /\ score st <> exact_percent (passed st) (total st)
  /\ Math_round_f64 (number 100 * number 23 / number 40)%float = 58%Z.
Proof. vm_compute. repeat split; discriminate. Qed.

(** What the helper does guarantee for every list of checks: [passed] and
    [failed] count the passing and the failing checks, [total] is the
    length of the list, [passed + failed = total], [warnings = 0], and the
    score is 100 for the empty list and otherwise [Math.round] of the
    double-precision value of [(passed / total) * 100], the quotient being
    taken, and rounded to a double, first. *)
Theorem calculateAuditStats_spec (checks : list AuditCheck) :
  let st := calculateAuditStats checks in
  passed st = length (filter (fun c => status c = pass) checks)
  /\ failed st = length (filter (fun c => status c = fail) checks)
  /\ total st = length checks
  /\ passed st + failed st = total st
  /\ warnings st = 0
  /\ score st =
       match checks with
       | [] => 100%Z
       | _ => Math_round_f64
                ((number (passed st) / number (total st)) * 100)%float
       end.
Proof.
  destruct checks as [|c checks]; [by vm_compute|].
  unfold calculateAuditStats.
  change (length (c :: checks) =? 0) with false. cbv iota zeta.
  cbn [passed failed total warnings score].
  repeat split. apply pass_fail_partition.
Qed.

End ReportersFacts.

(** ** Halstead metrics *)

Module HalsteadFacts.
Import Halstead.

Lemma join_empty_r s : join s empty = s.
Proof. destruct s. unfold join. simpl. by rewrite !app_nil_r. Qed.

Lemma join_empty_l s : join empty s = s.
Proof. by destruct s. Qed.

Lemma join_assoc s t u : join (join s t) u = join s (join t u).
Proof. unfold join. simpl. by rewrite !app_assoc. Qed.

Lemma additive_id : additive (fun s => s).
Proof. intros s. by rewrite join_empty_r. Qed.

Lemma additive_compose f g :
  additive f -> additive g -> additive (fun s => g (f s)).
Proof.
  intros Hf Hg s.
  by rewrite (Hg (f s)), (Hf s), (Hg (f empty)), join_assoc.
Qed.

Lemma additive_push_op t : additive (push_op t).
Proof. intros s. unfold push_op, join. simpl. by rewrite app_nil_r. Qed.

Lemma additive_push_od t : additive (push_od t).
Proof. intros s. unfold push_od, join. simpl. by rewrite app_nil_r. Qed.

Lemma additive_when c f : additive f -> additive (when c f).
Proof. intros Hf. destruct c; [exact Hf|exact additive_id]. Qed.

Lemma additive_foldl {A} (f : A -> Bags -> Bags) xs :
  Forall (fun x => additive (f x)) xs ->
  additive (fun s => foldl (fun s x => f x s) s xs).
Proof.
  induction 1 as [|x xs Hx _ IH]; simpl; [exact additive_id|].
  exact (additive_compose (f x) _ Hx IH).
Qed.

Lemma additive_each {A} (l : option (list A)) f :
  (forall x, additive (f x)) -> additive (each l f).
Proof.
  intros Hf. destruct l as [xs|]; simpl; [|exact additive_id].
  apply additive_foldl, Forall_forall. auto.
Qed.

Lemma additive_push_num tag x : additive (push_num tag x).
Proof. destruct x; [apply additive_push_od|exact additive_id]. Qed.

Lemma additive_push_unmixed tag x : additive (push_unmixed tag x).
Proof.
  destruct x as [[v|]|]; [apply additive_push_od|exact additive_id..].
Qed.

Lemma additive_push_paint tag p : additive (push_paint tag p).
Proof.
  unfold push_paint. destruct (solid_color p);
    [apply additive_push_od|exact additive_id].
Qed.

Create HintDb bags.
#[local] Hint Resolve additive_id additive_push_op additive_push_od
  additive_when additive_each additive_push_num additive_push_unmixed
  additive_push_paint : bags.

(** Split the outermost step off a chain of steps. *)
Ltac chain :=
  repeat lazymatch goal with
         | |- additive (fun s => s) => exact additive_id
         | |- additive (fun s => ?g (@?f s)) =>
             apply (additive_compose f g); [|solve [auto with bags]]
         end.

Lemma additive_operators_of n : additive (operators_of n).
Proof.
  unfold operators_of. cbv zeta.
  destruct (constraints n); chain.
Qed.

(** The first token a node pushes is its type. *)
Lemma operators_of_head n s :
  exists t, operators_of n s = join (push_op (op_type (node_type n)) s) t.
Proof.
  unfold operators_of. cbv zeta.
  generalize (push_op (op_type (node_type n)) s) as s1. intros s1.
  lazymatch goal with
  | |- exists t, ?L = _ =>
      let P := eval pattern s1 in L in
      lazymatch P with
      | ?G _ => exists (G empty); change (G s1 = join s1 (G empty));
                revert s1; change (additive G)
      end
  end.
  destruct (constraints n); chain.
Qed.

Lemma additive_operands_of n : additive (operands_of n).
Proof.
  unfold operands_of. cbv zeta.
  assert (forall e : LintEffect,
            additive (fun s => match effect_color e with
                               | Some c => when (effect_visible e)
                                             (push_od (od_effectColor (color_key c))) s
                               | None => s
                               end)) as Heffect.
  { intros e. destruct (effect_color e); auto with bags. }
  destruct (strokeWeight n), (opacity n); chain.
Qed.

Lemma walk_unfold n s :
  walk n s =
  foldl (fun s c => walk c s) (operands_of n (operators_of n s)) (kids n).
Proof. destruct n as [? ? ? ? ? ? ? ? ? ? ? ? ? ? ? ? ? ? ? ? ? [cs|]]; done. Qed.

Lemma additive_walk n : additive (walk n).
Proof.
  induction n as [n IH] using LintNode_kids_ind.
  intros s. rewrite !walk_unfold.
  pose proof (additive_foldl (fun c s => walk c s) (kids n) IH) as Hkids.
  pose proof (additive_compose _ _
                (additive_compose _ _ (additive_operators_of n)
                                      (additive_operands_of n)) Hkids) as H.
  exact (H s).
Qed.

(** The bags after the walk hold, node after node in depth-first order, the
    tokens of each node. *)
Lemma walk_tokens n :
  walk n empty = foldr (fun m acc => join (node_bags m) acc) empty (subtree n).
Proof.
  induction n as [n IH] using LintNode_kids_ind.
  rewrite walk_unfold, subtree_kids. simpl. fold (node_bags n).
  generalize (node_bags n) as s.
  induction IH as [|c cs Hc _ IHcs]; intros s; simpl.
  - by rewrite join_empty_r.
  - rewrite IHcs, (additive_walk c s), Hc, join_assoc. f_equal.
    rewrite foldr_app. clear.
    induction (subtree c) as [|m l IHl]; simpl.
    + by rewrite join_empty_l.
    + by rewrite <- IHl, join_assoc.
Qed.

(** The tokens of the card. *)
Lemma walk_example_card :
  walk example_card empty =
  mkBags
    [op_type "FRAME"; op_layout "HORIZONTAL"; op_sizingH "HUG";
     op_constraintH "MIN"; op_constraintV "MIN";
     op_effect "DROP_SHADOW"; op_effect "LAYER_BLUR";
     op_type "TEXT"; op_type "FRAME"]
    [od_color "1.00,0.50,0.00,1.00"; od_effectColor "0.00,0.00,0.00,0.25";
     od_radius (px 8); od_paddingTop (px 8); od_itemSpacing (px 8);
     od_fontSize (px 16)].
Proof. by vm_compute. Qed.

End HalsteadFacts.

(** *** Logarithms and rounding *)

Section real_facts.
#[local] Open Scope R_scope.

Lemma ln_2_pos : 0 < ln 2.
Proof. pose proof ln_lt_2. lra. Qed.

Lemma ln_nonneg x : 1 <= x -> 0 <= ln x.
Proof.
  intros [Hlt|<-]; [|rewrite ln_1; lra].
  rewrite <- ln_1. left. apply ln_increasing; lra.
Qed.

Lemma ln_mono x y : 0 < x -> x <= y -> ln x <= ln y.
Proof.
  intros Hx [Hlt|<-]; [|lra]. left. by apply ln_increasing.
Qed.

Lemma log2_1 : log2 1 = 0.
Proof. unfold log2, Rlog. rewrite ln_1. lra. Qed.

Lemma log2_nonneg x : 1 <= x -> 0 <= log2 x.
Proof.
  intros Hx. unfold log2, Rlog.
  apply Rmult_le_pos; [by apply ln_nonneg|].
  left. apply Rinv_0_lt_compat, ln_2_pos.
Qed.

Lemma log2_pos x : 1 < x -> 0 < log2 x.
Proof.
  intros Hx. unfold log2, Rlog.
  apply Rmult_lt_0_compat; [|apply Rinv_0_lt_compat, ln_2_pos].
  rewrite <- ln_1. apply ln_increasing; lra.
Qed.

Lemma log2_ge_1 x : 2 <= x -> 1 <= log2 x.
Proof.
  intros Hx. unfold log2, Rlog.
  pose proof ln_2_pos as H2.
  pose proof (ln_mono 2 x ltac:(lra) Hx) as Hle.
  apply (Rmult_le_reg_r (ln 2)); [done|].
  unfold Rdiv. rewrite Rmult_assoc, Rinv_l by lra. lra.
Qed.

Lemma Math_round_bounds x :
  IZR (Math_round x) - / 2 <= x < IZR (Math_round x) + / 2.
Proof.
  unfold Math_round. pose proof (Zfloor_bound (x + / 2)) as H.
  revert H. generalize (IZR (Zfloor (x + / 2))). intros k H. lra.
Qed.

Lemma Math_round_mono x y : x <= y -> (Math_round x <= Math_round y)%Z.
Proof. intros Hxy. unfold Math_round. apply Zfloor_le. lra. Qed.

Lemma Math_round_IZR k : Math_round (IZR k) = k.
Proof.
  unfold Math_round. apply Zfloor_eq. lra.
Qed.

Lemma Math_round_range x (lo hi : Z) :
  IZR lo <= x <= IZR hi -> (lo <= Math_round x <= hi)%Z.
Proof.
  intros [Hlo Hhi]. split.
  - rewrite <- (Math_round_IZR lo). by apply Math_round_mono.
  - rewrite <- (Math_round_IZR hi). by apply Math_round_mono.
Qed.

(** [round1 x] is a multiple of one tenth, and a nearest one. *)
Lemma round1_nearest x :
  round1 x = IZR (Math_round (x * 10)) / 10 /\ Rabs (round1 x - x) <= 1 / 20.
Proof.
  split; [done|]. unfold round1.
  pose proof (Math_round_bounds (x * 10)).
  apply Rabs_le. lra.
Qed.

Lemma round1_0 : round1 0 = 0.
Proof.
  unfold round1. replace (0 * 10) with (IZR 0) by lra.
  rewrite Math_round_IZR. lra.
Qed.

Lemma round1_ge_1 x : 1 <= x -> 1 <= round1 x.
Proof.
  intros Hx. unfold round1.
  pose proof (Math_round_mono (IZR 10) (x * 10) ltac:(lra)) as Hk.
  rewrite Math_round_IZR in Hk. apply IZR_le in Hk. lra.
Qed.

End real_facts.

(** *** Token counts *)

Lemma unique_le_total {A} `{EqDecision A} (l : list A) :
  length (remove_dups l) <= length l.
Proof.
  induction l as [|x l IH]; simpl; [done|].
  destruct (decide_rel elem_of x l); simpl; lia.
Qed.

Lemma unique_pos {A} `{EqDecision A} (l : list A) :
  l <> [] -> 1 <= length (remove_dups l).
Proof.
  destruct l as [|x l]; [done|]. intros _.
  assert (x ∈ remove_dups (x :: l)) as Hx
    by (apply elem_of_remove_dups; left).
  destruct (remove_dups (x :: l)); [by apply elem_of_nil in Hx|simpl; lia].
Qed.

Lemma operators_nonempty root :
  Halstead.operatorBag (Halstead.walk root (Halstead.mkBags [] [])) <> [].
Proof.
  fold Halstead.empty. rewrite HalsteadFacts.walk_tokens, subtree_kids.
  simpl. unfold Halstead.node_bags.
  rewrite (HalsteadFacts.additive_operands_of root).
  destruct (HalsteadFacts.operators_of_head root Halstead.empty) as [t ->].
  done.
Qed.

Lemma halstead_counts root :
  let h := halstead_raw root in
  1 <= raw_n1 h <= raw_N1 h /\ raw_n2 h <= raw_N2 h
  /\ raw_vocabulary h = raw_n1 h + raw_n2 h
  /\ raw_length h = raw_N1 h + raw_N2 h.
Proof.
  unfold halstead_raw. cbn [raw_n1 raw_n2 raw_N1 raw_N2 raw_vocabulary raw_length].
  repeat split.
  - apply unique_pos, operators_nonempty.
  - apply unique_le_total.
  - apply unique_le_total.
Qed.

Lemma raw_volume_spec root :
  raw_volume (halstead_raw root)
  = spec_volume (raw_vocabulary (halstead_raw root))
                (raw_length (halstead_raw root)).
Proof.
  unfold halstead_raw, spec_volume.
  cbn [raw_volume raw_vocabulary raw_length].
  set (ops := Halstead.operatorBag _). set (ods := Halstead.operandBag _).
  set (len := length ops + length ods).
  set (voc := length (remove_dups ops) + length (remove_dups ods)).
  destruct (Nat.ltb_spec 0 len) as [Hlen|Hlen],
           (Nat.ltb_spec 0 voc) as [Hvoc|Hvoc]; simpl.
  - destruct (decide (voc <= 1 \/ len = 0)) as [[Hv|Hl]|Hn]; [|lia|done].
    assert (voc = 1) as -> by lia. simpl. rewrite log2_1. lra.
  - rewrite decide_True by lia. done.
  - rewrite decide_True by lia. done.
  - rewrite decide_True by lia. done.
Qed.

Lemma raw_difficulty_spec root :
  raw_difficulty (halstead_raw root)
  = spec_difficulty (raw_n1 (halstead_raw root)) (raw_n2 (halstead_raw root))
                    (raw_N2 (halstead_raw root)).
Proof.
  unfold halstead_raw, spec_difficulty.
  cbn [raw_difficulty raw_n1 raw_n2 raw_N2].
  set (n2 := length (remove_dups _)).
  destruct (Nat.ltb_spec 0 n2) as [Hn|Hn].
  - by rewrite decide_False by lia.
  - by rewrite decide_True by lia.
Qed.


(** ** Composite score *)

Section composite_facts.
#[local] Open Scope R_scope.

Lemma Rmin_100_range x : 0 <= x -> 0 <= Rmin 100 x <= 100.
Proof. intros Hx. split; [apply Rmin_glb; lra|apply Rmin_l]. Qed.

Lemma log2_ratio_nonneg x base :
  1 <= x -> 1 < base -> 0 <= log2 x / log2 base.
Proof.
  intros Hx Hb. apply Rmult_le_pos; [by apply log2_nonneg|].
  left. by apply Rinv_0_lt_compat, log2_pos.
Qed.

Lemma spec_structuralScore_range nodes depth :
  0 <= spec_structuralScore nodes depth <= 100.
Proof.
  apply Rmin_100_range.
  pose proof (pos_INR nodes). pose proof (pos_INR depth).
  pose proof (log2_ratio_nonneg (INR nodes + 1) 500 ltac:(lra) ltac:(lra)).
  lra.
Qed.

Lemma spec_cyclomaticScore_range cyc :
  (1 <= cyc)%nat -> 0 <= spec_cyclomaticScore cyc <= 100.
Proof.
  intros Hc. apply Rmin_100_range. apply le_INR in Hc. simpl in Hc. lra.
Qed.

Lemma spec_halsteadScore_range vol :
  vol = 0 \/ 1 <= vol -> 0 <= spec_halsteadScore vol <= 100.
Proof.
  intros Hvol. unfold spec_halsteadScore.
  destruct (Rlt_dec 0 vol) as [Hpos|Hneg]; [|lra].
  apply Rmin_100_range.
  pose proof (log2_ratio_nonneg vol 5000 ltac:(lra) ltac:(lra)). lra.
Qed.

(** The reported volume is 0 or at least 1: with two distinct tokens or
    more the unrounded volume is at least the length. *)
Lemma volume_zero_or_ge_1 root :
  volume (computeHalsteadMetrics root) = 0
  \/ 1 <= volume (computeHalsteadMetrics root).
Proof.
  unfold computeHalsteadMetrics. cbn [volume].
  rewrite raw_volume_spec. unfold spec_volume.
  generalize (raw_vocabulary (halstead_raw root)) as voc.
  generalize (raw_length (halstead_raw root)) as len. intros len voc.
  destruct (decide _) as [_|Hn]; [left; apply round1_0|right].
  apply round1_ge_1.
  assert (2 <= voc)%nat as Hv by lia.
  assert (1 <= len)%nat as Hl by lia.
  apply le_INR in Hv, Hl. simpl in Hv, Hl.
  pose proof (log2_ge_1 _ Hv) as Hlog.
  assert (1 * 1 <= INR len * log2 (INR voc)) as H
    by (apply Rmult_le_compat; lra).
  lra.
Qed.

End composite_facts.

(** C4.  The composite score of a component is
    [round(clamp(0.3 × structuralScore + 0.3 × cyclomaticScore
                 + 0.4 × halsteadScore, 0, 100))]
    with the three axis scores as the specification gives them; each axis
    score lies in [0, 100], and so does the composite. *)
Theorem composite_score_spec (c : LintComponent) :
  let r := analyzeComponentComplexity c in
  let nodes := nodeCount (structural r) in
  let depth := maxDepth (structural r) in
  let cyc := score (cyclomatic r) in
  let vol := volume (halstead r) in
  composite r = spec_composite nodes depth cyc vol
  /\ (0 <= spec_structuralScore nodes depth <= 100)%R
  /\ (0 <= spec_cyclomaticScore cyc <= 100)%R
  /\ (0 <= spec_halsteadScore vol <= 100)%R
  /\ (0 <= composite r <= 100)%Z.
Proof.
  cbv zeta. unfold analyzeComponentComplexity.
  cbn [composite structural cyclomatic halstead].
  split; [reflexivity|].
  split; [apply spec_structuralScore_range|].
  split.
  { apply spec_cyclomaticScore_range.
    unfold computeCyclomaticMetrics. cbn [score]. lia. }
  split; [apply spec_halsteadScore_range, volume_zero_or_ge_1|].
  unfold computeCompositeScore. apply Math_round_range.
  split; [|apply Rmin_l].
  apply Rmin_glb; [lra|apply Rmax_l].
Qed.

(** ** Batch analysis *)

Lemma insert_desc_perm x l : insert_desc x l ≡ₚ x :: l.
Proof.
  induction l as [|y l IH]; simpl; [done|].
  destruct (composite x <? composite y)%Z; [|done].
  rewrite IH. apply Permutation_swap.
Qed.

Lemma insert_desc_sorted x l :
  StronglySorted ge_composite l -> StronglySorted ge_composite (insert_desc x l).
Proof.
  induction 1 as [|y l Hl IH Hy]; simpl.
  - repeat constructor.
  - destruct (Z.ltb_spec (composite x) (composite y)) as [Hlt|Hge].
    + constructor; [done|].
      rewrite insert_desc_perm. constructor; [unfold ge_composite; lia|done].
    + constructor; [by constructor|].
      constructor; [done|].
      eapply Forall_impl; [exact Hy|]. unfold ge_composite. intros; lia.
Qed.

Lemma sort_desc_perm l : sort_desc l ≡ₚ l.
Proof.
  induction l as [|x l IH]; simpl; [done|].
  by rewrite insert_desc_perm, IH.
Qed.

Lemma sort_desc_sorted l : StronglySorted ge_composite (sort_desc l).
Proof.
  induction l as [|x l IH]; simpl; [constructor|by apply insert_desc_sorted].
Qed.

Lemma sorted_descending l : StronglySorted ge_composite l -> descending l.
Proof.
  induction 1 as [|x l Hl IH Hx]; intros i a b Ha Hb; [done|].
  destruct i as [|i]; simpl in *.
  - injection Ha as <-. rewrite Forall_forall in Hx.
    apply Hx. by eapply list_elem_of_lookup_2.
  - by eapply IH.
Qed.

Section batch_facts.
Context {W : Type}.
Implicit Types (onProgress : option (@Progress W)) (w : W).

(** With a callback that never throws, the outcome of the loop is the one
    of the loop without a callback. *)
Lemma loop_collect onProgress rest : forall i len results w,
  never_throws onProgress ->
  (loop rest i len onProgress results w).2 = collect rest results.
Proof.
  induction rest as [|comp rest IH]; intros i len results w Hcb; simpl;
    [done|].
  destruct onProgress as [f|]; simpl.
  - destruct comp as [c|]; simpl; [|done].
    pose proof (Hcb (progress_message c i len) w) as Hret.
    destruct (f (progress_message c i len) w) as [w' [e|]]; simpl in *;
      [done|].
    by apply IH.
  - destruct (analyze comp); [by apply IH|done].
Qed.

(** A throwing callback, or a misshapen component, ends the loop with the
    exception. *)
Lemma loop_raises_callback (f : @Progress W) c rest i len results w :
  (f (progress_message c i len) w).2 <> None ->
  exists e, (loop (Shaped c :: rest) i len (Some f) results w).2 = Raises e.
Proof.
  intros Hthrow. simpl.
  destruct (f (progress_message c i len) w) as [w' [e|]]; simpl in *;
    [by exists e|done].
Qed.

Lemma loop_raises_misshapen onProgress rest : forall i len results w,
  Misshapen ∈ rest ->
  exists e, (loop rest i len onProgress results w).2 = Raises e.
Proof.
  induction rest as [|comp rest IH]; intros i len results w Hin;
    [by apply elem_of_nil in Hin|].
  simpl. destruct (notify onProgress comp i len w) as [w' [e|]] eqn:Hn;
    [by exists e|].
  destruct comp as [c|]; simpl; [|by exists TypeError].
  apply IH. apply elem_of_cons in Hin as [?|?]; done.
Qed.

Lemma analyzeAllComponents_outcome components onProgress w :
  (analyzeAllComponents components onProgress w).2 =
  match (loop components 0 (length components) onProgress [] w).2 with
  | Returns results => Returns (sort_desc results)
  | Raises e => Raises e
  end.
Proof.
  unfold analyzeAllComponents.
  by destruct (loop _ _ _ _ _ _) as [w' [rs|e]].
Qed.

End batch_facts.

Lemma collect_shaped cs : forall results,
  collect (Shaped <$> cs) results
  = Returns (results ++ (analyzeComponentComplexity <$> cs)).
Proof.
  induction cs as [|c cs IH]; intros results; csimpl.
  - by rewrite app_nil_r.
  - by rewrite IH, <- app_assoc.
Qed.

(** With well-shaped components and a callback that never throws, the
    batch returns the sorted list of the results of all components. *)
Lemma batch_returns {W} cs (onProgress : option (@Progress W)) w :
  never_throws onProgress ->
  returned (analyzeAllComponents (Shaped <$> cs) onProgress w)
  = Some (sort_desc (analyzeComponentComplexity <$> cs)).
Proof.
  intros Hcb. unfold returned.
  rewrite analyzeAllComponents_outcome, loop_collect, collect_shaped by done.
  done.
Qed.

(** C7.  The list [analyzeAllComponents] returns is sorted non-increasing
    by [composite]: every element's composite is at least the next
    element's. *)
Theorem analyzeAllComponents_descending {W}
    (components : list (Untyped LintComponent))
    (onProgress : option (@Progress W)) (w : W)
    (results : list ComponentComplexityResult) :
  returned (analyzeAllComponents components onProgress w) = Some results ->
  descending results.
Proof.
  unfold returned. rewrite analyzeAllComponents_outcome.
  destruct (loop _ _ _ _ _ _).2 as [rs|e]; [|done].
  intros [= <-]. apply sorted_descending, sort_desc_sorted.
Qed.

Lemma analyzeAllComponents_descending_witness :
  descending (sort_desc (analyzeComponentComplexity <$> example_components)).
Proof.
  apply (analyzeAllComponents_descending
           (Shaped <$> example_components) (Some log_progress) []).
  reflexivity.
Defined.

(** C9.  The outcome of the batch depends on the components only: two runs
    on the same components, each with a callback that does not throw or
    with none, and from whatever state of what the callbacks write to,
    give the same outcome.  (The analysis of a single component is a
    function of the component in this embedding.) *)
Theorem analysis_depends_on_components_only {W1 W2}
    (components : list (Untyped LintComponent))
    (onProgress1 : option (@Progress W1)) (onProgress2 : option (@Progress W2))
    (w1 : W1) (w2 : W2) :
  never_throws onProgress1 -> never_throws onProgress2 ->
  (analyzeAllComponents components onProgress1 w1).2
  = (analyzeAllComponents components onProgress2 w2).2.
Proof.
  intros H1 H2.
  by rewrite !analyzeAllComponents_outcome, !loop_collect.
Qed.

Lemma analysis_depends_on_components_only_witness :
  (analyzeAllComponents (Shaped <$> example_components)
                        (Some log_progress) ["started"]).2
  = (analyzeAllComponents (Shaped <$> example_components) None tt).2.
Proof.
  apply analysis_depends_on_components_only.
  - intros msg log. reflexivity.
  - exact I.
Defined.

(** C2, as stated, fails: a callback that throws when it is invoked aborts
    the batch, and no result list is returned. *)
Lemma throwing_callback_counterexample :
  ~ exists results,
      returned (analyzeAllComponents (Shaped <$> example_components)
                                     (Some throwing_progress) tt)
      = Some results.
Proof. intros [results H]. discriminate H. Qed.

(** C2, amended.  A callback that returns normally on every message does
    not disturb the analysis: the batch returns the sorted results of all
    components.  A callback that throws when it is invoked aborts a batch
    over a non-empty list: nothing catches the exception and no result list
    is returned. *)
Theorem callback_and_batch {W} (cs : list LintComponent)
    (f : @Progress W) (w : W) :
  (never_throws (Some f) ->
   returned (analyzeAllComponents (Shaped <$> cs) (Some f) w)
   = Some (sort_desc (analyzeComponentComplexity <$> cs)))
  /\ ((forall msg w', (f msg w').2 <> None) -> cs <> [] ->
      returned (analyzeAllComponents (Shaped <$> cs) (Some f) w) = None).
Proof.
  split; [apply batch_returns|].
  intros Hthrow Hne. destruct cs as [|c cs]; [done|].
  unfold returned. rewrite analyzeAllComponents_outcome.
  destruct (loop_raises_callback f c (Shaped <$> cs) 0
              (length (Shaped <$> c :: cs)) [] w (Hthrow _ _)) as [e He].
  csimpl in *. by rewrite He.
Qed.

Lemma callback_and_batch_witness :
  returned (analyzeAllComponents (Shaped <$> example_components)
                                 (Some log_progress) [])
  = Some (sort_desc (analyzeComponentComplexity <$> example_components))
  /\ returned (analyzeAllComponents (Shaped <$> example_components)
                                    (Some throwing_progress) tt) = None.
Proof.
  split.
  - apply (proj1 (callback_and_batch example_components log_progress [])).
    intros msg log. reflexivity.
  - apply (proj2 (callback_and_batch example_components throwing_progress tt)).
    + intros msg w'. simpl. discriminate.
    + discriminate.
Defined.

(** C3, as stated, fails: when the analysis of one component raises, the
    batch returns nothing, neither for the components after it nor for
    those already analysed. *)
Lemma misshapen_component_counterexample :
  ~ exists results,
      returned (analyzeAllComponents
                  [Shaped (mkComponent example_set "Page 1");
                   Misshapen;
                   Shaped (mkComponent example_button "Page 2")]
                  (@None (@Progress unit)) tt)
      = Some results.
Proof. intros [results H]. discriminate H. Qed.

(** C3, amended.  When the analysis of one component raises, the exception
    leaves [analyzeAllComponents] and the whole batch is aborted: no result
    list is returned.  When every component has the expected shape and the
    callback does not throw, the results of all components are returned. *)
Theorem misshapen_component_and_batch {W}
    (components : list (Untyped LintComponent))
    (onProgress : option (@Progress W)) (w : W) :
  (Misshapen ∈ components ->
   returned (analyzeAllComponents components onProgress w) = None)
  /\ (forall cs, components = Shaped <$> cs -> never_throws onProgress ->
      exists results,
        returned (analyzeAllComponents components onProgress w) = Some results
        /\ length results = length cs
        /\ forall c, c ∈ cs -> analyzeComponentComplexity c ∈ results).
Proof.
  split.
  - intros Hin. unfold returned. rewrite analyzeAllComponents_outcome.
    destruct (loop_raises_misshapen onProgress components 0
                (length components) [] w Hin) as [e He].
    by rewrite He.
  - intros cs -> Hcb.
    exists (sort_desc (analyzeComponentComplexity <$> cs)).
    split; [by apply batch_returns|].
    split; [by rewrite sort_desc_perm, length_fmap|].
    intros c Hc. rewrite sort_desc_perm. by apply list_elem_of_fmap_2.
Qed.

Lemma misshapen_component_and_batch_witness :
  returned (analyzeAllComponents
              [Shaped (mkComponent example_set "Page 1"); Misshapen]
              (Some log_progress) []) = None
  /\ exists results,
       returned (analyzeAllComponents (Shaped <$> example_components)
                                      (@None (@Progress unit)) tt)
       = Some results
       /\ length results = length example_components
       /\ forall c, c ∈ example_components ->
                    analyzeComponentComplexity c ∈ results.
Proof.
  split.
  - apply (proj1 (misshapen_component_and_batch _ _ _)).
    right. left.
  - apply (proj2 (misshapen_component_and_batch _ None tt) example_components).
    + reflexivity.
    + exact I.
Defined.

(** * Further properties of the analyzer *)

(** ** Shape of the structural metrics *)

Lemma structural_closed_form root :
  let m := computeStructuralMetrics root in
  nodeCount m = length (subtree root)
  /\ maxDepth m = height root
  /\ leafCount m = length (filter (fun n => kids n = []) (subtree root))
  /\ maxFanOut m = max_list ((fun n => length (kids n)) <$> subtree root)
  /\ typeDistribution m
     = foldl (fun m t => bump t m) ∅ (node_type <$> subtree root)
  /\ uniqueTypes m = size (typeDistribution m).
Proof.
  cbv zeta. split; [apply computeStructuralMetrics_nodeCount|].
  unfold computeStructuralMetrics.
  cbn [maxDepth leafCount maxFanOut typeDistribution uniqueTypes].
  rewrite !walk_structural_fold, fold_maxDepth, fold_leafCount,
    fold_maxFanOut, fold_typeDistribution, nodes_at_subtree, max_depth_height.
  done.
Qed.

Lemma height_lt_subtree n : height n < length (subtree n).
Proof.
  induction n as [n IH] using LintNode_kids_ind.
  rewrite height_kids, subtree_kids. cbn [length].
  induction IH as [|c cs Hc _ IHcs]; csimpl; [lia|].
  rewrite length_app. lia.
Qed.

Lemma fan_out_lt_subtree n :
  max_list ((fun m => length (kids m)) <$> subtree n) < length (subtree n).
Proof.
  induction n as [n IH] using LintNode_kids_ind.
  rewrite subtree_kids. csimpl. unfold id.
  assert (length (kids n) <= length (flat_map subtree (kids n))
          /\ max_list ((fun m => length (kids m)) <$> flat_map subtree (kids n))
             <= length (flat_map subtree (kids n))) as [H1 H2]; [|lia].
  induction IH as [|c cs Hc _ [IH1 IH2]]; csimpl; [lia|].
  rewrite fmap_app, max_list_app, length_app.
  pose proof (height_lt_subtree c). lia.
Qed.

Lemma leaf_in_subtree n :
  1 <= length (filter (fun m => kids m = []) (subtree n)).
Proof.
  induction n as [n IH] using LintNode_kids_ind.
  rewrite subtree_kids, filter_cons.
  destruct (decide (kids n = [])) as [|Hne]; [simpl; lia|].
  destruct IH as [|c cs Hc _]; [done|]. csimpl.
  rewrite filter_app, length_app. lia.
Qed.

Lemma dom_bump t (m : gmap string Entry) :
  dom (bump t m) = dom m ∪ ({[t]} ∖ {["__proto__"]}).
Proof.
  unfold bump. destruct (m !! t) as [[n|name ones]|] eqn:Hm.
  - apply (elem_of_dom_2 (D := gset string)) in Hm.
    rewrite dom_insert_L. set_solver.
  - apply (elem_of_dom_2 (D := gset string)) in Hm.
    rewrite dom_insert_L. set_solver.
  - destruct (decide (t = "__proto__")) as [->|Hproto]; [set_solver|].
    destruct (decide (t ∈ inherited_methods)); rewrite dom_insert_L;
      set_solver.
Qed.

(** The own keys of the histogram object are the type tags that occur,
    except [__proto__]. *)
Lemma dom_bumps ts : forall m : gmap string Entry,
  dom (foldl (fun m t => bump t m) m ts)
  = dom m ∪ (list_to_set ts ∖ {["__proto__"]}).
Proof.
  induction ts as [|t ts IH]; intros m; simpl; [set_solver|].
  rewrite IH, dom_bump. set_solver.
Qed.

Lemma uniqueTypes_keys root :
  uniqueTypes (computeStructuralMetrics root)
  = size (list_to_set (node_type <$> subtree root) ∖ {["__proto__"]}
          : gset string).
Proof.
  unfold computeStructuralMetrics. cbn [uniqueTypes].
  rewrite walk_structural_fold, fold_typeDistribution, nodes_at_subtree.
  cbn [ss_typeDistribution].
  rewrite <- size_dom, dom_bumps, dom_empty_L.
  by rewrite (left_id_L ∅ (∪)).
Qed.

Lemma size_list_to_set_le (ts : list string) :
  size (list_to_set ts : gset string) <= length ts.
Proof.
  induction ts as [|t ts IH]; [done|].
  rewrite list_to_set_cons, size_union_alt, size_singleton. cbn [length].
  pose proof (subseteq_size (list_to_set ts ∖ {[t]})
                (list_to_set ts : gset string) ltac:(set_solver)).
  lia.
Qed.

(** The structural metrics of any tree are tied to each other: there is a
    leaf and no more leaves than nodes; the deepest node and the widest
    node leave room for the root ([maxDepth < nodeCount],
    [maxFanOut < nodeCount]); [uniqueTypes] is the number of distinct type
    tags of the subtree, the tag [__proto__] not counted, and is at most
    [nodeCount]; it is at least 1 when the root's tag is not [__proto__],
    and it is the number of distinct type tags when no node has that
    tag. *)
Theorem structural_metrics_bounds (root : LintNode) :
  let m := computeStructuralMetrics root in
  let tags : gset string := list_to_set (node_type <$> subtree root) in
  1 <= leafCount m <= nodeCount m
  /\ maxDepth m < nodeCount m
  /\ maxFanOut m < nodeCount m
  /\ uniqueTypes m = size (tags ∖ {["__proto__"]})
  /\ uniqueTypes m <= nodeCount m
  /\ (node_type root <> "__proto__" -> 1 <= uniqueTypes m)
  /\ (Forall (fun n => node_type n <> "__proto__") (subtree root) ->
      uniqueTypes m = size tags).
Proof.
  destruct (structural_closed_form root)
    as (Hn & Hd & Hl & Hf & Ht & Hu).
  cbv zeta in *. rewrite Hn, Hd, Hl, Hf, uniqueTypes_keys.
  split; [split; [apply leaf_in_subtree|apply length_filter]|].
  split; [apply height_lt_subtree|].
  split; [apply fan_out_lt_subtree|].
  split; [done|]. split; [|split].
  - etrans; [apply subseteq_size, subseteq_difference_l; reflexivity|].
    etrans; [apply size_list_to_set_le|]. by rewrite length_fmap.
  - intros Hroot.
    enough (size (list_to_set (node_type <$> subtree root)
                  ∖ {["__proto__"]} : gset string) <> 0) by lia.
    apply size_non_empty_iff. rewrite subtree_kids, fmap_cons.
    intros Hnone. apply (not_elem_of_empty (C := gset string) (node_type root)).
    apply Hnone. set_solver.
  - intros Hnone. f_equal. apply set_eq. intros t.
    rewrite elem_of_difference, elem_of_list_to_set, not_elem_of_singleton.
    split; [by intros [? _]|]. intros Ht'. split; [done|].
    apply list_elem_of_fmap in Ht' as (n & -> & Hn').
    by apply (proj1 (Forall_forall _ _) Hnone).
Qed.

Lemma structural_metrics_bounds_witness :
  1 <= uniqueTypes (computeStructuralMetrics example_set)
  /\ uniqueTypes (computeStructuralMetrics example_set)
     = size (list_to_set (node_type <$> subtree example_set) : gset string).
Proof.
  pose proof (structural_metrics_bounds example_set) as H.
  split.
  - apply H. discriminate.
  - apply H. apply (bool_decide_unpack _). by vm_compute.
Defined.

(** A component is a single layer exactly when its depth is 0, and exactly
    when its fan-out is 0. *)
Theorem single_node_metrics (root : LintNode) :
  let m := computeStructuralMetrics root in
  (nodeCount m = 1 <-> kids root = [])
  /\ (maxDepth m = 0 <-> kids root = [])
  /\ (maxFanOut m = 0 <-> kids root = []).
Proof.
  destruct (structural_closed_form root) as (Hn & Hd & _ & Hf & _).
  cbv zeta in *. rewrite Hn, Hd, Hf, subtree_kids, height_kids.
  destruct (kids root) as [|c cs] eqn:E; csimpl; rewrite ?E; [done|].
  rewrite length_app, (subtree_kids c). csimpl.
  repeat split; intros; try done; lia.
Qed.

(** ** The cyclomatic breakdown *)

Lemma plus_breakdown_assoc a b c :
  plus_breakdown (plus_breakdown a b) c = plus_breakdown a (plus_breakdown b c).
Proof. unfold plus_breakdown. simpl. f_equal; lia. Qed.

Lemma plus_breakdown_zero a : plus_breakdown a (tally []) = a.
Proof. destruct a. unfold plus_breakdown. simpl. f_equal; lia. Qed.

Lemma tally_cons d ds :
  tally (d :: ds) = plus_breakdown (Cyclomatic.visit d (tally [])) (tally ds).
Proof.
  unfold tally, of_kind, Cyclomatic.visit, plus_breakdown.
  rewrite !filter_cons, !eqb_decide.
  destruct (decide (def_type d = "VARIANT")) as [->|?]; [by csimpl|].
  destruct (decide (def_type d = "BOOLEAN")) as [->|?]; [by csimpl|].
  destruct (decide (def_type d = "INSTANCE_SWAP")) as [->|?]; [by csimpl|].
  destruct (decide (def_type d = "TEXT")) as [->|?]; [by csimpl|].
  by rewrite !bool_decide_eq_false_2 by done.
Qed.

Lemma tally_app ds es : tally (ds ++ es) = plus_breakdown (tally ds) (tally es).
Proof.
  induction ds as [|d ds IH].
  - rewrite app_nil_l. by destruct (tally es).
  - rewrite <- app_comm_cons, !tally_cons, IH. by rewrite plus_breakdown_assoc.
Qed.

Lemma visit_plus d s :
  Cyclomatic.visit d s = plus_breakdown s (Cyclomatic.visit d (tally [])).
Proof.
  unfold Cyclomatic.visit, plus_breakdown.
  repeat (destruct (String.eqb _ _); [simpl; f_equal; lia|]).
  destruct s. simpl. f_equal; lia.
Qed.

Lemma visit_all_plus defs s :
  Cyclomatic.visit_all defs s = plus_breakdown s (tally (map_to_list defs).*2).
Proof.
  unfold Cyclomatic.visit_all. rewrite map_fold_foldr.
  induction (map_to_list defs) as [|[k d] l IH]; csimpl.
  - by rewrite plus_breakdown_zero.
  - rewrite visit_plus, IH, tally_cons.
    unfold plus_breakdown. simpl. f_equal; lia.
Qed.

Lemma walk_cyclomatic_plus n : forall s,
  Cyclomatic.walk n s = plus_breakdown s (tally (all_defs n)).
Proof.
  induction n as [n IH] using LintNode_kids_ind; intros s.
  rewrite walk_cyclomatic_unfold. unfold all_defs.
  rewrite subtree_kids. csimpl. rewrite tally_app, <- plus_breakdown_assoc.
  assert (Hroot : match componentPropertyDefinitions n with
                  | Some defs => Cyclomatic.visit_all defs s
                  | None => s
                  end
                  = plus_breakdown s
                      (tally match componentPropertyDefinitions n with
                             | Some defs => (map_to_list defs).*2
                             | None => []
                             end)).
  { destruct (componentPropertyDefinitions n);
      [apply visit_all_plus|by rewrite plus_breakdown_zero]. }
  rewrite Hroot. generalize (plus_breakdown s
    (tally match componentPropertyDefinitions n with
           | Some defs => (map_to_list defs).*2
           | None => []
           end)) as s'.
  induction IH as [|c cs Hc _ IHcs]; intros s'; csimpl.
  - by rewrite plus_breakdown_zero.
  - rewrite IHcs, Hc, flat_map_app, tally_app. unfold all_defs.
    by rewrite plus_breakdown_assoc.
Qed.

(** The breakdown that is kept beside the score: [variants] is the sum of
    the option counts of the VARIANT definitions of the subtree,
    [booleanProps], [instanceSwaps] and [textProps] are the numbers of
    BOOLEAN, INSTANCE_SWAP and TEXT definitions, and the score is one more
    than their sum.  Definitions of any other type (the match is exact and
    case-sensitive) are in none of them. *)
Theorem cyclomatic_breakdown_spec (root : LintNode) :
  let m := computeCyclomaticMetrics root in
  let ds := all_defs root in
  variants (breakdown m) = sum_list (option_count <$> of_kind "VARIANT" ds)
  /\ booleanProps (breakdown m) = length (of_kind "BOOLEAN" ds)
  /\ instanceSwaps (breakdown m) = length (of_kind "INSTANCE_SWAP" ds)
  /\ textProps (breakdown m) = length (of_kind "TEXT" ds)
  /\ score m = 1 + variants (breakdown m) + booleanProps (breakdown m)
               + instanceSwaps (breakdown m) + textProps (breakdown m).
Proof.
  cbv zeta. unfold computeCyclomaticMetrics. cbn [breakdown score].
  rewrite walk_cyclomatic_plus. by cbn.
Qed.

(** ** Halstead counts and values *)

Lemma structural_metrics_bounds_aux root :
  nodeCount (computeStructuralMetrics root) = length (subtree root)
  /\ uniqueTypes (computeStructuralMetrics root)
     <= size (list_to_set (node_type <$> subtree root) : gset string).
Proof.
  destruct (structural_closed_form root) as (Hn & _).
  cbv zeta in *. split; [done|].
  rewrite uniqueTypes_keys.
  apply subseteq_size, subseteq_difference_l. reflexivity.
Qed.

Lemma bags_of_subtree root :
  let s := Halstead.walk root Halstead.empty in
  Halstead.operatorBag s
    = flat_map (fun n => Halstead.operatorBag (Halstead.node_bags n))
               (subtree root)
  /\ Halstead.operandBag s
    = flat_map (fun n => Halstead.operandBag (Halstead.node_bags n))
               (subtree root).
Proof.
  cbv zeta. rewrite HalsteadFacts.walk_tokens.
  induction (subtree root) as [|n l [IH1 IH2]]; simpl; [done|].
  by rewrite IH1, IH2.
Qed.

Lemma node_bags_head n :
  exists rest,
    Halstead.operatorBag (Halstead.node_bags n) = op_type (node_type n) :: rest.
Proof.
  unfold Halstead.node_bags.
  rewrite (HalsteadFacts.additive_operands_of n).
  destruct (HalsteadFacts.operators_of_head n Halstead.empty) as [t ->].
  simpl. eauto.
Qed.

Lemma type_tokens_collected root n :
  n ∈ subtree root ->
  op_type (node_type n)
    ∈ Halstead.operatorBag (Halstead.walk root Halstead.empty).
Proof.
  intros Hn. rewrite (proj1 (bags_of_subtree root)).
  apply list_elem_of_In, in_flat_map. exists n.
  split; [by apply list_elem_of_In|].
  destruct (node_bags_head n) as [rest ->]. by left.
Qed.

Lemma operators_at_least_nodes root :
  length (subtree root)
  <= length (Halstead.operatorBag (Halstead.walk root Halstead.empty)).
Proof.
  rewrite (proj1 (bags_of_subtree root)).
  induction (subtree root) as [|n l IH]; simpl; [lia|].
  rewrite length_app. destruct (node_bags_head n) as [rest ->]. simpl. lia.
Qed.

Lemma size_list_to_set_remove_dups (ts : list string) :
  size (list_to_set ts : gset string) = length (remove_dups ts).
Proof.
  rewrite <- (size_list_to_set (C := gset string) (remove_dups ts))
    by apply NoDup_remove_dups.
  f_equal. apply set_eq. intros t.
  by rewrite !elem_of_list_to_set, elem_of_remove_dups.
Qed.

#[local] Instance op_type_inj : Inj (=) (=) op_type.
Proof. by intros ? ? [= ->]. Qed.

(** The Halstead counts of any component: there is at least one distinct
    operator, no more distinct tokens than tokens, at least one operator
    token per node (its type), at least one distinct operator per distinct
    node type, and the vocabulary is at most the length. *)
Theorem halstead_count_bounds (root : LintNode) :
  let m := computeHalsteadMetrics root in
  let s := computeStructuralMetrics root in
  1 <= unique (operators m) <= total (operators m)
  /\ unique (operands m) <= total (operands m)
  /\ nodeCount s <= total (operators m)
  /\ uniqueTypes s <= unique (operators m)
  /\ 1 <= vocabulary m <= length_ m.
Proof.
  destruct (halstead_counts root) as ([Hn1 HN1] & Hn2 & Hv & Hl).
  destruct (structural_metrics_bounds_aux root) as [Hnodes Htypes].
  cbv zeta in *. unfold computeHalsteadMetrics.
  cbn [operators operands unique total vocabulary length_].
  rewrite Hnodes.
  split; [done|]. split; [done|].
  split; [apply operators_at_least_nodes|].
  split; [|lia].
  etrans; [exact Htypes|].
  rewrite size_list_to_set_remove_dups.
  rewrite <- (length_fmap op_type). apply submseteq_length, NoDup_submseteq.
  - apply NoDup_fmap_2; [apply _|apply NoDup_remove_dups].
  - intros t (ty & -> & Hty)%list_elem_of_fmap.
    rewrite elem_of_remove_dups in Hty.
    apply list_elem_of_fmap in Hty as (n & -> & Hn).
    rewrite elem_of_remove_dups. by apply type_tokens_collected.
Qed.

Section value_facts.
#[local] Open Scope R_scope.

Lemma round1_mono x y : x <= y -> round1 x <= round1 y.
Proof.
  intros Hxy. unfold round1.
  pose proof (Math_round_mono (x * 10) (y * 10) ltac:(lra)) as Hk.
  apply IZR_le in Hk. lra.
Qed.

(** A multiple of one tenth is its own rounding. *)
Lemma round1_tenths (k : Z) : round1 (IZR k / 10) = IZR k / 10.
Proof.
  unfold round1. replace (IZR k / 10 * 10) with (IZR k) by lra.
  by rewrite Math_round_IZR.
Qed.

Lemma round1_INR (n : nat) : round1 (INR n) = INR n.
Proof.
  rewrite INR_IZR_INZ.
  replace (IZR (Z.of_nat n)) with (IZR (10 * Z.of_nat n) / 10)
    by (rewrite mult_IZR; lra).
  apply round1_tenths.
Qed.

Lemma round1_half_INR (n : nat) : round1 (INR n / 2) = INR n / 2.
Proof.
  rewrite INR_IZR_INZ.
  replace (IZR (Z.of_nat n) / 2) with (IZR (5 * Z.of_nat n) / 10)
    by (rewrite mult_IZR; lra).
  apply round1_tenths.
Qed.

Lemma round1_nonneg x : 0 <= x -> 0 <= round1 x.
Proof. intros Hx. rewrite <- round1_0. by apply round1_mono. Qed.

Lemma log2_pow2 (k : nat) : log2 (2 ^ k) = INR k.
Proof.
  unfold log2, Rlog. rewrite ln_pow by lra.
  pose proof ln_2_pos. field. lra.
Qed.

Lemma log2_lt x y : 0 < x -> x < y -> log2 x < log2 y.
Proof.
  intros Hx Hxy. unfold log2, Rlog.
  apply Rmult_lt_compat_r; [apply Rinv_0_lt_compat, ln_2_pos|].
  by apply ln_increasing.
Qed.

Lemma log2_500_bounds : 17 / 2 < log2 500 < 9.
Proof.
  split.
  - assert (log2 (2 ^ 17) < log2 (500 ^ 2)) as H
      by (apply log2_lt; simpl; lra).
    rewrite log2_pow2 in H. unfold log2, Rlog in *.
    rewrite ln_pow in H by lra. simpl in H. lra.
  - replace 9 with (INR 9) by (simpl; lra).
    rewrite <- log2_pow2. apply log2_lt; simpl; lra.
Qed.

Lemma raw_volume_nonneg root : 0 <= raw_volume (halstead_raw root).
Proof.
  rewrite raw_volume_spec. unfold spec_volume.
  destruct (decide _) as [|Hn]; [lra|].
  apply Rmult_le_pos; [apply pos_INR|].
  apply log2_nonneg. replace 1 with (INR 1) by done. apply le_INR. lia.
Qed.

Lemma raw_difficulty_nonneg root : 0 <= raw_difficulty (halstead_raw root).
Proof.
  rewrite raw_difficulty_spec. unfold spec_difficulty.
  destruct (decide _) as [|Hn]; [lra|].
  assert (0 < INR (raw_n2 (halstead_raw root)))
    by (apply lt_0_INR; lia).
  pose proof (pos_INR (raw_n1 (halstead_raw root))).
  pose proof (pos_INR (raw_N2 (halstead_raw root))).
  apply Rmult_le_pos; [lra|].
  apply Rmult_le_pos; [lra|]. left. by apply Rinv_0_lt_compat.
Qed.

End value_facts.

Lemma raw_effort_product root :
  raw_effort (halstead_raw root)
  = (raw_difficulty (halstead_raw root) * raw_volume (halstead_raw root))%R.
Proof. reflexivity. Qed.

(** What the Halstead values of a component can be.  None is negative.
    With a single distinct token the volume and the effort are 0; with two
    or more the volume is at least the length.  Without operands the
    difficulty and the effort are 0; with operands the difficulty is at
    least half the number of distinct operators. *)
Theorem halstead_value_bounds (root : LintNode) :
  let m := computeHalsteadMetrics root in
  ((0 <= volume m)%R /\ (0 <= difficulty m)%R /\ (0 <= effort m)%R)
  /\ (vocabulary m = 1 -> volume m = 0%R /\ effort m = 0%R)
  /\ (2 <= vocabulary m -> (INR (length_ m) <= volume m)%R)
  /\ (unique (operands m) = 0 -> difficulty m = 0%R /\ effort m = 0%R)
  /\ (1 <= unique (operands m) ->
      (INR (unique (operators m)) / 2 <= difficulty m)%R).
Proof.
  destruct (halstead_counts root) as ([Hn1 HN1] & Hn2 & Hv & Hl).
  pose proof (raw_volume_nonneg root) as Hvol.
  pose proof (raw_difficulty_nonneg root) as Hdif.
  cbv zeta in *. unfold computeHalsteadMetrics.
  cbn [volume difficulty effort vocabulary length_ operands operators unique].
  rewrite raw_effort_product.
  split; [|split; [|split; [|split]]].
  - repeat split; apply round1_nonneg; try done.
    by apply Rmult_le_pos.
  - intros Hone.
    assert (raw_volume (halstead_raw root) = 0%R) as ->.
    { rewrite raw_volume_spec. unfold spec_volume.
      by rewrite decide_True by lia. }
    rewrite Rmult_0_r. split; apply round1_0.
  - intros Htwo. rewrite <- round1_INR. apply round1_mono.
    rewrite raw_volume_spec. unfold spec_volume.
    rewrite decide_False by lia.
    apply (le_INR 2) in Htwo. change (INR 2) with (1 + 1)%R in Htwo.
    pose proof (log2_ge_1 _ Htwo).
    pose proof (pos_INR (raw_length (halstead_raw root))).
    rewrite <- (Rmult_1_r (INR _)) at 1.
    apply Rmult_le_compat_l; lra.
  - intros Hnone.
    assert (raw_difficulty (halstead_raw root) = 0%R) as ->.
    { rewrite raw_difficulty_spec. unfold spec_difficulty.
      by rewrite decide_True by done. }
    rewrite Rmult_0_l. split; apply round1_0.
  - intros Hsome. rewrite <- round1_half_INR. apply round1_mono.
    rewrite raw_difficulty_spec. unfold spec_difficulty.
    rewrite decide_False by lia.
    assert (0 < INR (raw_n2 (halstead_raw root)))%R
      by (apply lt_0_INR; lia).
    apply le_INR in Hn2.
    pose proof (pos_INR (raw_n1 (halstead_raw root))).
    assert (1 <= INR (raw_N2 (halstead_raw root))
                 / INR (raw_n2 (halstead_raw root)))%R.
    { apply (Rmult_le_reg_r (INR (raw_n2 (halstead_raw root)))); [done|].
      unfold Rdiv. rewrite Rmult_assoc, Rinv_l by lra. lra. }
    rewrite <- (Rmult_1_r (INR _ / 2)) at 1.
    apply Rmult_le_compat_l; lra.
Qed.

Lemma halstead_value_bounds_witness :
  (volume (computeHalsteadMetrics (plain "1:2" "Icon" "COMPONENT" None)) = 0%R
   /\ difficulty (computeHalsteadMetrics (plain "1:2" "Icon" "COMPONENT" None))
      = 0%R)
  /\ (INR (length_ (computeHalsteadMetrics example_card))
      <= volume (computeHalsteadMetrics example_card))%R
  /\ (INR (unique (operators (computeHalsteadMetrics example_card))) / 2
      <= difficulty (computeHalsteadMetrics example_card))%R.
Proof.
  split; [split|split].
  - apply (halstead_value_bounds (plain "1:2" "Icon" "COMPONENT" None)).
    reflexivity.
  - apply (halstead_value_bounds (plain "1:2" "Icon" "COMPONENT" None)).
    reflexivity.
  - apply (halstead_value_bounds example_card).
    lazy. lia.
  - apply (halstead_value_bounds example_card).
    lazy. lia.
Defined.

(** ** The composite score is never below 2 *)

Section composite_floor.
#[local] Open Scope R_scope.

Lemma structural_axis_floor nodes depth :
  (1 <= nodes)%nat -> 70 / 9 <= spec_structuralScore nodes depth.
Proof.
  intros Hn. unfold spec_structuralScore.
  destruct log2_500_bounds as [Hlo Hhi].
  apply le_INR in Hn. change (INR 1) with 1 in Hn.
  pose proof (pos_INR depth).
  pose proof (log2_ge_1 (INR nodes + 1) ltac:(lra)) as Hlog.
  assert (/ 9 <= log2 (INR nodes + 1) / log2 500) as Hratio.
  { apply (Rmult_le_reg_r (log2 500)); [lra|].
    unfold Rdiv. rewrite Rmult_assoc, Rinv_l by lra. lra. }
  apply Rmin_glb; lra.
Qed.

Lemma composite_floor_any s c h :
  (1 <= nodeCount s)%nat -> (1 <= score c)%nat ->
  volume h = 0 \/ 1 <= volume h ->
  (2 <= computeCompositeScore s c h)%Z.
Proof.
  intros Hn Hc Hv. unfold computeCompositeScore.
  fold (spec_structuralScore (nodeCount s) (maxDepth s)).
  fold (spec_cyclomaticScore (score c)).
  fold (spec_halsteadScore (volume h)).
  pose proof (structural_axis_floor _ (maxDepth s) Hn).
  pose proof (spec_cyclomaticScore_range _ Hc).
  pose proof (spec_halsteadScore_range _ Hv).
  rewrite <- (Math_round_IZR 2) at 1. apply Math_round_mono.
  apply Rmin_glb; [lra|].
  etrans; [|apply Rmax_r]. lra.
Qed.

End composite_floor.

(** For every component the composite score is at least 2: a component
    has at least one node, and one node alone already weighs 70/log2(500)
    on the structural axis.  The scores 0 and 1 are never given. *)
Theorem composite_at_least_2 (c : LintComponent) :
  (2 <= composite (analyzeComponentComplexity c) <= 100)%Z.
Proof.
  unfold analyzeComponentComplexity. cbn [composite]. split.
  - apply composite_floor_any.
    + rewrite computeStructuralMetrics_nodeCount, subtree_kids. simpl. lia.
    + unfold computeCyclomaticMetrics. cbn [score]. lia.
    + apply volume_zero_or_ge_1.
  - unfold computeCompositeScore.
    refine (proj2 (Math_round_range _ 0 100 _)).
    split; [|apply Rmin_l]. apply Rmin_glb; [lra|apply Rmax_l].
Qed.

(** A lone layer without styling or properties, the degenerate component,
    has one node, cyclomatic score 1, Halstead volume 0 and composite
    score exactly 2. *)
Theorem bare_component_scores (i n t p : string) :
  let r := analyzeComponentComplexity (mkComponent (plain i n t None) p) in
  nodeCount (structural r) = 1
  /\ score (cyclomatic r) = 1
  /\ volume (halstead r) = 0%R
  /\ composite r = 2%Z.
Proof.
  cbv zeta. unfold analyzeComponentComplexity.
  cbn [structural cyclomatic halstead composite node].
  assert (Hvol : volume (computeHalsteadMetrics (plain i n t None)) = 0%R).
  { unfold computeHalsteadMetrics, halstead_raw. simpl.
    rewrite log2_1, Rmult_0_r. apply round1_0. }
  split; [done|]. split; [done|]. split; [exact Hvol|].
  unfold computeCompositeScore. rewrite Hvol.
  destruct (Rlt_dec 0 0) as [Hlt|_]; [lra|].
  change (score (computeCyclomaticMetrics (plain i n t None))) with 1.
  change (nodeCount (computeStructuralMetrics (plain i n t None))) with 1.
  change (maxDepth (computeStructuralMetrics (plain i n t None))) with 0.
  change (INR 1) with 1%R. change (INR 0) with 0%R.
  replace (1 + 1)%R with (2 ^ 1)%R by (simpl; lra).
  rewrite log2_pow2. change (INR 1) with 1%R.
  destruct log2_500_bounds as [Hlo Hhi].
  assert (/ 9 < / log2 500)%R as Hinv1
    by (apply Rinv_lt_contravar; [apply Rmult_lt_0_compat|]; lra).
  assert (/ log2 500 < / (17 / 2))%R as Hinv2
    by (apply Rinv_lt_contravar; [apply Rmult_lt_0_compat|]; lra).
  replace (1 / log2 500)%R with (/ log2 500)%R by (unfold Rdiv; lra).
  revert Hinv1 Hinv2. generalize (/ log2 500)%R as q.
  intros q Hinv1 Hinv2.
  unfold Math_round. apply Zfloor_eq.
  unfold Rmin, Rmax; repeat destruct (Rle_dec _ _); lra.
Qed.

(** ** What the batch returns and what the callback is told *)

Lemma insert_desc_ties k x l :
  with_composite k (insert_desc x l) = with_composite k (x :: l).
Proof.
  unfold with_composite. induction l as [|y l IH]; simpl; [done|].
  destruct (Z.ltb_spec (composite x) (composite y)) as [Hlt|Hge]; [|done].
  rewrite (filter_cons _ y), IH, !filter_cons.
  repeat case_decide; try done; lia.
Qed.

Lemma sort_desc_ties k l : with_composite k (sort_desc l) = with_composite k l.
Proof.
  induction l as [|x l IH]; simpl; [done|].
  rewrite insert_desc_ties. unfold with_composite in *.
  rewrite !filter_cons, IH. done.
Qed.

Lemma loop_returns {W} (onProgress : option (@Progress W)) comps :
  forall i len results w rs,
  (loop comps i len onProgress results w).2 = Returns rs ->
  collect comps results = Returns rs.
Proof.
  induction comps as [|comp comps IH]; intros i len results w rs; simpl;
    [done|].
  destruct (notify onProgress comp i len w) as [w' [e|]]; [done|].
  destruct (analyze comp) as [r|e]; [apply IH|done].
Qed.

(** When the batch over a list of components returns, it returns one
    result per component, nothing is lost or duplicated, and components of
    equal composite score come in the order they were given in. *)
Theorem batch_result_stable {W} (cs : list LintComponent)
    (onProgress : option (@Progress W)) (w : W)
    (results : list ComponentComplexityResult) :
  returned (analyzeAllComponents (Shaped <$> cs) onProgress w)
  = Some results ->
  length results = length cs
  /\ results ≡ₚ analyzeComponentComplexity <$> cs
  /\ forall k, with_composite k results
               = with_composite k (analyzeComponentComplexity <$> cs).
Proof.
  unfold returned. rewrite analyzeAllComponents_outcome.
  destruct (loop _ _ _ _ _ _).2 as [rs|e] eqn:Hloop; [|done].
  intros [= <-].
  apply loop_returns in Hloop. rewrite collect_shaped in Hloop.
  injection Hloop as <-. cbn [app].
  split; [|split].
  - by rewrite sort_desc_perm, length_fmap.
  - apply sort_desc_perm.
  - intros k. apply sort_desc_ties.
Qed.

Lemma batch_result_stable_witness :
  length (sort_desc (analyzeComponentComplexity <$> example_components)) = 2
  /\ sort_desc (analyzeComponentComplexity <$> example_components)
     ≡ₚ analyzeComponentComplexity <$> example_components
  /\ forall k,
       with_composite k
         (sort_desc (analyzeComponentComplexity <$> example_components))
       = with_composite k (analyzeComponentComplexity <$> example_components).
Proof.
  apply (batch_result_stable example_components (Some log_progress) []).
  reflexivity.
Defined.

Lemma loop_told {W} (f : @Progress W) cs : forall i len results w,
  never_throws (Some f) ->
  (loop (Shaped <$> cs) i len (Some f) results w).1
  = told f w (messages_from i len cs).
Proof.
  induction cs as [|c cs IH]; intros i len results w Hf; csimpl; [done|].
  pose proof (Hf (progress_message c i len) w) as Hret.
  rewrite Nat.add_0_r.
  destruct (f (progress_message c i len) w) as [w' [e|]] eqn:Hfw;
    simpl in *; [done|].
  rewrite IH by done. unfold told, messages_from. f_equal.
  apply imap_ext. intros j c' _. simpl. f_equal. lia.
Qed.

Lemma loop_told_misshapen {W} (f : @Progress W) cs rest :
  forall i len results w,
  never_throws (Some f) ->
  (loop ((Shaped <$> cs) ++ Misshapen :: rest) i len (Some f) results w).1
  = told f w (messages_from i len cs).
Proof.
  induction cs as [|c cs IH]; intros i len results w Hf; csimpl; [done|].
  pose proof (Hf (progress_message c i len) w) as Hret.
  rewrite Nat.add_0_r.
  destruct (f (progress_message c i len) w) as [w' [e|]] eqn:Hfw;
    simpl in *; [done|].
  rewrite IH by done. unfold told, messages_from. f_equal.
  apply imap_ext. intros j c' _. simpl. f_equal. lia.
Qed.

Lemma analyzeAllComponents_state {W} components
    (onProgress : option (@Progress W)) w :
  (analyzeAllComponents components onProgress w).1
  = (loop components 0 (length components) onProgress [] w).1.
Proof.
  unfold analyzeAllComponents.
  by destruct (loop _ _ _ _ _ _) as [w' [rs|e]].
Qed.

(** A callback that does not throw is told one message per component, in
    list order, numbered 1/N to N/N.  When an element of the array is
    misshapen it is told the messages of the components before that
    element and nothing more. *)
Theorem callback_is_told {W} (f : @Progress W) (w : W)
    (cs : list LintComponent) (rest : list (Untyped LintComponent)) :
  never_throws (Some f) ->
  (analyzeAllComponents (Shaped <$> cs) (Some f) w).1
    = told f w (messages_from 0 (length cs) cs)
  /\ (analyzeAllComponents ((Shaped <$> cs) ++ Misshapen :: rest)
                           (Some f) w).1
    = told f w (messages_from 0 (length cs + S (length rest)) cs).
Proof.
  intros Hf. rewrite !analyzeAllComponents_state. split.
  - rewrite loop_told by done. by rewrite length_fmap.
  - rewrite loop_told_misshapen by done.
    by rewrite length_app, length_fmap.
Qed.

Lemma callback_is_told_witness :
  (analyzeAllComponents (Shaped <$> example_components)
                        (Some log_progress) []).1
    = ["Analyzing Button (1/2)"; "Analyzing Button (2/2)"]
  /\ (analyzeAllComponents
        ((Shaped <$> example_components) ++ [Misshapen;
           Shaped (mkComponent example_card "Page 3")])
        (Some log_progress) []).1
    = ["Analyzing Button (1/4)"; "Analyzing Button (2/4)"].
Proof.
  apply (callback_is_told log_progress [] example_components
           [Shaped (mkComponent example_card "Page 3")]).
  intros msg log. reflexivity.
Defined.

(** * Further properties of the reporters *)

Module ReportFacts.
Import Reporters Report.

Lemma stats_counts (checks : list AuditCheck) :
  passed (calculateAuditStats checks)
    = length (filter (fun c => status c = pass) checks)
  /\ failed (calculateAuditStats checks)
    = length (filter (fun c => status c = fail) checks)
  /\ total (calculateAuditStats checks) = length checks.
Proof. by destruct checks. Qed.

Lemma component_stats_counts (checks : list AuditCheck) :
  cs_passed (calculateComponentStats checks)
    = length (filter (fun c => status c = pass) checks)
  /\ cs_failed (calculateComponentStats checks)
    = length (filter (fun c => status c = fail) checks)
  /\ cs_total (calculateComponentStats checks) = length checks
  /\ cs_score (calculateComponentStats checks)
    = score (calculateAuditStats checks).
Proof. by destruct checks. Qed.

(** The overall counters of an audit are the sums of the counters of its
    three sections: the overall statistics are taken over the concatenation
    of the collection, text-style and component checks, the sections'
    statistics over each list (the component section with
    [calculateComponentStats]). *)
Theorem overall_counts_add_up (collection textStyle component : list AuditCheck) :
  let overall := calculateAuditStats (collection ++ textStyle ++ component) in
  let c := calculateAuditStats collection in
  let t := calculateAuditStats textStyle in
  let k := calculateComponentStats component in
  passed overall = passed c + passed t + cs_passed k
  /\ failed overall = failed c + failed t + cs_failed k
  /\ total overall = total c + total t + cs_total k.
Proof.
  cbv zeta.
  destruct (stats_counts (collection ++ textStyle ++ component))
    as (-> & -> & ->).
  destruct (stats_counts collection) as (-> & -> & ->).
  destruct (stats_counts textStyle) as (-> & -> & ->).
  destruct (component_stats_counts component) as (-> & -> & -> & _).
  rewrite !filter_app, !length_app. lia.
Qed.

(** With the two statuses of the data model, no check is counted as
    failed exactly when every check passes, and exactly when all checks are
    counted as passed. *)
Theorem no_failure_iff_all_pass (checks : list AuditCheck) :
  let st := calculateAuditStats checks in
  (failed st = 0 <-> Forall (fun c => status c = pass) checks)
  /\ (failed st = 0 <-> passed st = total st).
Proof.
  cbv zeta. destruct (stats_counts checks) as (-> & -> & ->).
  pose proof (ReportersFacts.pass_fail_partition checks) as Hsum.
  split; [|lia]. split.
  - intros Hnone. apply length_zero_iff_nil in Hnone.
    apply Forall_forall. intros c Hc.
    destruct (status c) eqn:Hs; [done|].
    assert (c ∈ filter (fun c => status c = fail) checks) as Hin
      by by apply list_elem_of_filter.
    rewrite Hnone in Hin. by apply elem_of_nil in Hin.
  - intros Hall. induction Hall as [|c l Hc _ IH]; [done|].
    rewrite filter_cons_False by (rewrite Hc; done).
    apply IH. rewrite !filter_cons in Hsum. rewrite Hc in Hsum.
    simpl in Hsum. lia.
Qed.

(** *** Escaping *)

Lemma append_cons a s t : String a s +:+ t = String a (s +:+ t).
Proof. reflexivity. Qed.

Lemma append_nil_l s : EmptyString +:+ s = s.
Proof. reflexivity. Qed.

Lemma append_nil_r s : s +:+ EmptyString = s.
Proof. induction s as [|a s IH]; [done|]. by rewrite append_cons, IH. Qed.

Lemma append_assoc s t u : (s +:+ t) +:+ u = s +:+ (t +:+ u).
Proof. induction s as [|a s IH]; [done|]. by rewrite !append_cons, IH. Qed.

(** Bring the characters of literal prefixes to the front. *)
Ltac expose := rewrite ?append_cons, ?append_nil_l.

Lemma replace_char_app c b s t :
  replace_char c b (s +:+ t) = replace_char c b s +:+ replace_char c b t.
Proof.
  induction s as [|a s IH]; [done|].
  rewrite append_cons. cbn [replace_char]. rewrite IH.
  destruct (Ascii.eqb a c); [by rewrite append_assoc|done].
Qed.

Lemma replace_char_cons c b a rest :
  replace_char c b (String a rest)
  = replace_char c b (String a EmptyString) +:+ replace_char c b rest.
Proof.
  cbn [replace_char]. destruct (Ascii.eqb a c); [by rewrite append_nil_r|done].
Qed.

Lemma replace_char_other c b a :
  Ascii.eqb a c = false ->
  replace_char c b (String a EmptyString) = String a EmptyString.
Proof. intros H. cbn [replace_char]. by rewrite H. Qed.

Lemma escapeHtml_cons a rest :
  escapeHtml (String a rest) = escape_char a +:+ escapeHtml rest.
Proof.
  unfold escapeHtml.
  rewrite (replace_char_cons "&"%char), !replace_char_app. f_equal.
  unfold escape_char.
  destruct (Ascii.eqb_spec a "&"%char) as [->|N1]; [by vm_compute|].
  destruct (Ascii.eqb_spec a "<"%char) as [->|N2]; [by vm_compute|].
  destruct (Ascii.eqb_spec a ">"%char) as [->|N3]; [by vm_compute|].
  destruct (Ascii.eqb_spec a dquote) as [->|N4]; [by vm_compute|].
  destruct (Ascii.eqb_spec a newline) as [->|N5]; [by vm_compute|].
  apply Ascii.eqb_neq in N1, N2, N3, N4, N5.
  by rewrite !replace_char_other.
Qed.

Lemma escape_each_app s t :
  escape_each (s +:+ t) = escape_each s +:+ escape_each t.
Proof.
  induction s as [|a s IH]; [done|].
  rewrite append_cons. cbn [escape_each]. by rewrite IH, append_assoc.
Qed.

Lemma occurs_app c s t : occurs c (s +:+ t) = occurs c s || occurs c t.
Proof.
  induction s as [|a s IH]; [done|].
  rewrite append_cons. cbn [occurs]. by rewrite IH, orb_assoc.
Qed.

(** The five replacements of [escapeHtml], made one after the other over
    the whole text, do not disturb one another: the result is the text
    escaped character by character, ampersand, angle brackets, double quote
    and line feed by their codes and every other character by itself.  So
    escaping a concatenation is concatenating the escaped parts. *)
Theorem escapeHtml_each (text more : string) :
  escapeHtml text = escape_each text
  /\ escapeHtml (text +:+ more) = escapeHtml text +:+ escapeHtml more.
Proof.
  assert (Heach : forall s, escapeHtml s = escape_each s).
  { induction s as [|a s IH]; [done|].
    rewrite escapeHtml_cons, IH. done. }
  split; [apply Heach|]. rewrite !Heach. apply escape_each_app.
Qed.

Lemma escapeHtml_escape_each s : escapeHtml s = escape_each s.
Proof.
  induction s as [|a s IH]; [done|]. by rewrite escapeHtml_cons, IH.
Qed.

(** The escaped text holds no double quote and no line feed, whatever the
    text: it cannot end the double-quoted attribute it is put in. *)
Theorem escapeHtml_no_quote (text : string) :
  occurs dquote (escapeHtml text) = false
  /\ occurs newline (escapeHtml text) = false.
Proof.
  induction text as [|a s [IH1 IH2]]; [done|].
  rewrite escapeHtml_cons, !occurs_app, IH1, IH2, !orb_false_r.
  unfold escape_char.
  destruct (Ascii.eqb a "&"%char); [done|].
  destruct (Ascii.eqb a "<"%char); [done|].
  destruct (Ascii.eqb a ">"%char); [done|].
  destruct (Ascii.eqb a dquote) eqn:Hq; [done|].
  destruct (Ascii.eqb a newline) eqn:Hn; [done|].
  cbn [occurs]. by rewrite Hq, Hn.
Qed.

(** Tell the first characters of two escaped texts apart. *)
Ltac classify a :=
  destruct (Ascii.eqb_spec a "&"%char) as [->|?];
  [|destruct (Ascii.eqb_spec a "<"%char) as [->|?];
    [|destruct (Ascii.eqb_spec a ">"%char) as [->|?];
      [|destruct (Ascii.eqb_spec a dquote) as [->|?];
        [|destruct (Ascii.eqb_spec a newline) as [->|?]]]]].

(** Escaping loses nothing: different texts have different escaped texts. *)
Theorem escapeHtml_injective (s t : string) :
  escapeHtml s = escapeHtml t -> s = t.
Proof.
  rewrite !escapeHtml_escape_each.
  revert t. induction s as [|a s IH]; intros [|b t]; cbn [escape_each];
    [done|..].
  - unfold escape_char. classify b; expose; done.
  - unfold escape_char. classify a; expose; done.
  - unfold escape_char. classify a; classify b; expose;
      intros H; try discriminate H;
      injection H as H; subst; try done;
      try (f_equal; by apply IH).
Qed.

Lemma escapeHtml_injective_witness : "a<b" = "a<b".
Proof. apply escapeHtml_injective. reflexivity. Defined.

(** *** Labels, colours and bars *)

(** Decide the thresholds a score is compared with. *)
Ltac bands :=
  repeat match goal with
         | |- context [(?x <=? ?n)%Z] => destruct (Z.leb_spec x n); try lia
         end.

(** The label and the colour of a score are those of the chip of the scale
    whose printed range holds the score; every score from 0 to 100 is in
    the range of a chip. *)
Theorem label_and_color_follow_scale (score : Z) :
  (forall lo hi label color,
     (lo, hi, label, color) ∈ scale_chips -> (lo <= score <= hi)%Z ->
     compositeLabel score = label /\ compositeColor score = color)
  /\ ((0 <= score <= 100)%Z ->
      exists lo hi,
        (lo, hi, compositeLabel score, compositeColor score) ∈ scale_chips
        /\ (lo <= score <= hi)%Z).
Proof.
  unfold compositeLabel, compositeColor, scale_chips. split.
  - intros lo hi label color Hin Hrange.
    repeat (apply elem_of_cons in Hin as [Heq|Hin];
            [simplify_eq; bands; done|]).
    by apply elem_of_nil in Hin.
  - intros Hrange.
    bands;
      [exists 0%Z, 20%Z|exists 21%Z, 40%Z|exists 41%Z, 60%Z
      |exists 61%Z, 80%Z|exists 81%Z, 100%Z];
      (split; [set_solver|lia]).
Qed.

Lemma label_and_color_follow_scale_witness :
  compositeLabel 41 = "Complex" /\ compositeColor 41 = "#f59e0b".
Proof.
  apply (proj1 (label_and_color_follow_scale 41) 41%Z 60%Z).
  - unfold scale_chips. do 2 right. left.
  - lia.
Defined.

Lemma computeCompositeScore_range s c h :
  (0 <= computeCompositeScore s c h <= 100)%Z.
Proof.
  unfold computeCompositeScore. apply Math_round_range.
  split; [|apply Rmin_l]. apply Rmin_glb; [lra|apply Rmax_l].
Qed.

#[local] Instance Exn_eq_dec : EqDecision Exn.
Proof. solve_decision. Defined.

#[local] Instance Outcome_eq_dec {A} `{EqDecision A} : EqDecision (Outcome A).
Proof. solve_decision. Defined.

Lemma compositeBar_table :
  forallb (fun score =>
             bool_decide (compositeBar score 20
                          = Returns (bar_of ((2 * score + 5) / 10))))
          (seqZ 0 101) = true.
Proof. by vm_compute. Qed.

(** For every score from 0 to 100 the bar is made of 20 cells, of which
    the nearest whole number to [score / 5] are filled; so for the
    composite score of any component.  A score of 103 makes the count of
    empty cells negative, and [repeat] raises. *)
Theorem compositeBar_spec (score : Z) :
  ((0 <= score <= 100)%Z ->
   compositeBar score 20 = Returns (bar_of ((2 * score + 5) / 10))
   /\ length (bar_of ((2 * score + 5) / 10)) = 20)
  /\ (forall c, exists bar,
        compositeBar (composite (analyzeComponentComplexity c)) 20
        = Returns bar /\ length bar = 20)
  /\ compositeBar 103 20 = Raises (Thrown "RangeError: Invalid count value").
Proof.
  assert (Hrange : forall z, (0 <= z <= 100)%Z ->
    compositeBar z 20 = Returns (bar_of ((2 * z + 5) / 10))
    /\ length (bar_of ((2 * z + 5) / 10)) = 20).
  { intros z Hz. split.
    - pose proof compositeBar_table as Htable.
      rewrite forallb_forall in Htable.
      specialize (Htable z). rewrite bool_decide_eq_true in Htable.
      apply Htable, list_elem_of_In, elem_of_seqZ. lia.
    - unfold bar_of. rewrite length_app, !length_replicate.
      assert (0 <= (2 * z + 5) / 10 <= 20)%Z
        by (split; [apply Z.div_pos; lia
                   |apply Z.lt_succ_r, Z.div_lt_upper_bound; lia]).
      lia. }
  split; [apply Hrange|]. split; [|by vm_compute].
  intros c. eexists. apply Hrange.
  unfold analyzeComponentComplexity. cbn [composite].
  apply computeCompositeScore_range.
Qed.

Lemma compositeBar_spec_witness :
  compositeBar 57 20 = Returns (bar_of 11) /\ length (bar_of 11) = 20.
Proof. apply (proj1 (compositeBar_spec 57)). lia. Defined.

Lemma pad_facts (str : jsstring) (len : Z) :
  str `prefix_of` pad str len
  /\ Z.of_nat (length (pad str len)) = Z.max (Z.of_nat (length str)) len.
Proof.
  unfold pad. split; [by apply prefix_app_r|].
  rewrite length_app, length_replicate. lia.
Qed.

(** Padding never cuts and never falls short: the padded string starts
    with the string and is as long as the longer of the string and the
    width; a width below the length, or a negative one, adds nothing. *)
Theorem pad_spec (str : jsstring) (len : Z) :
  str `prefix_of` pad str len
  /\ Z.of_nat (length (pad str len)) = Z.max (Z.of_nat (length str)) len
  /\ ((len <= Z.of_nat (length str))%Z -> pad str len = str).
Proof.
  destruct (pad_facts str len) as [Hpre Hlen].
  split; [done|]. split; [done|].
  intros Hle. unfold pad.
  replace (Z.max 0 _) with 0%Z by lia. apply app_nil_r.
Qed.

Lemma pad_spec_witness : pad [67; 67]%N 1 = [67; 67]%N.
Proof. apply pad_spec. simpl. lia. Defined.

(** Every name cell of the summary table is exactly 36 units wide: a name
    of up to 34 units is kept whole, a longer one is cut to its first 31
    units followed by three dots. *)
Theorem name_cell_width (componentName : jsstring) :
  length (name_cell componentName) = 36
  /\ (if decide (length componentName <= 34)
      then componentName `prefix_of` name_cell componentName
      else (take 31 componentName ++ [46; 46; 46]%N)
             `prefix_of` name_cell componentName).
Proof.
  unfold name_cell, nameW.
  destruct (Z.ltb_spec (36 - 2) (Z.of_nat (length componentName)))
    as [Hlong|Hshort].
  - rewrite decide_False by lia.
    change (Z.to_nat (36 - 5)) with 31.
    destruct (pad_facts (take 31 componentName ++ [46; 46; 46]%N) 36)
      as (Hpre & Hlen).
    split; [|done].
    rewrite length_app, length_take in Hlen. cbn [length] in Hlen. lia.
  - rewrite decide_True by lia.
    destruct (pad_facts componentName 36) as (Hpre & Hlen).
    split; [lia|done].
Qed.

End ReportFacts.

(** * Properties of the command line *)

Module CliFacts.
Import Report Cli ReportFacts.

(** ** Node ids and deep links *)

Lemma occurs_false_cons c a s :
  occurs c (String a s) = false <-> Ascii.eqb a c = false /\ occurs c s = false.
Proof. cbn [occurs]. apply orb_false_iff. Qed.

Lemma replace_char_single_absent c d s :
  c <> d ->
  occurs c (replace_char c (String d EmptyString) s) = false.
Proof.
  intros Hcd. induction s as [|a s IH]; [done|].
  cbn [replace_char]. destruct (Ascii.eqb_spec a c) as [->|Hac].
  - rewrite append_cons, append_nil_l. apply occurs_false_cons.
    split; [by apply Ascii.eqb_neq|done].
  - apply occurs_false_cons. split; [by apply Ascii.eqb_neq|done].
Qed.

Lemma replace_char_single_back c d s :
  occurs d s = false ->
  replace_char d (String c EmptyString)
    (replace_char c (String d EmptyString) s) = s.
Proof.
  induction s as [|a s IH]; [done|].
  intros [Had Hs]%occurs_false_cons. cbn [replace_char].
  destruct (Ascii.eqb_spec a c) as [->|Hac].
  - rewrite append_cons, append_nil_l. cbn [replace_char].
    rewrite Ascii.eqb_refl, append_cons, append_nil_l. by rewrite IH.
  - cbn [replace_char]. by rewrite Had, IH.
Qed.

Lemma replace_char_single_nonempty c d s :
  s <> EmptyString -> replace_char c (String d EmptyString) s <> EmptyString.
Proof.
  destruct s as [|a s]; [done|]. intros _. cbn [replace_char].
  by destruct (Ascii.eqb a c).
Qed.

Lemma split_on_absent c s : occurs c s = false -> split_on c s = [s].
Proof.
  induction s as [|a s IH]; [done|].
  intros [Hac Hs]%occurs_false_cons. cbn [split_on].
  by rewrite Hac, IH.
Qed.

Lemma split_on_pieces c s piece :
  piece ∈ split_on c s -> occurs c piece = false.
Proof.
  revert piece. induction s as [|a s IH]; intros piece.
  - intros ->%list_elem_of_singleton. done.
  - cbn [split_on]. destruct (Ascii.eqb a c) eqn:Hac.
    + intros [->|Hin]%elem_of_cons; [done|by apply IH].
    + destruct (split_on c s) as [|p ps] eqn:Hsplit.
      * intros ->%list_elem_of_singleton.
        apply occurs_false_cons. done.
      * intros [->|Hin]%elem_of_cons.
        -- apply occurs_false_cons. split; [done|]. apply IH. by left.
        -- apply IH. by right.
Qed.

(** A node id that holds no hyphen survives the trip into a deep link and
    back; in general every hyphen comes back as a colon. *)
Theorem node_id_round_trip (nodeId : string) :
  occurs "-"%char (hyphenate nodeId) = occurs "-"%char nodeId
                                       || occurs ":"%char nodeId
  /\ occurs "-"%char (colonize (hyphenate nodeId)) = false
  /\ (occurs "-"%char nodeId = false -> colonize (hyphenate nodeId) = nodeId).
Proof.
  split; [|split].
  - unfold hyphenate. induction nodeId as [|a s IH]; [done|].
    cbn [replace_char occurs].
    destruct (Ascii.eqb_spec a ":"%char) as [->|Ha].
    + rewrite append_cons, append_nil_l. cbn [occurs]. rewrite IH.
      simpl. by rewrite orb_true_r.
    + cbn [occurs]. rewrite IH.
      destruct (Ascii.eqb a "-"%char); simpl; [done|].
      done.
  - apply (replace_char_single_absent "-"%char ":"%char). done.
  - apply (replace_char_single_back ":"%char "-"%char).
Qed.

Lemma node_id_round_trip_witness :
  colonize (hyphenate "42:100") = "42:100".
Proof. apply node_id_round_trip. reflexivity. Defined.

(** ** Parsing a URL *)

Section url_facts.
Context (new_URL : string -> option URL).

(** What a successful parse guarantees: the text, its escapes stripped, was
    accepted by the platform's parser and its host name ends in figma.com;
    the file key is a non-empty path segment, the one that follows the
    first [design] or [file] segment; and a node id, when there is one, is
    non-empty and holds no hyphen. *)
Theorem parseFigmaUrl_returns (url : string) (parts : FigmaUrlParts) :
  parseFigmaUrl new_URL url = Returns parts ->
  (exists parsed,
     new_URL (strip_escapes url) = Some parsed
     /\ ends_with "figma.com" (hostname parsed) = true
     /\ exists before prefix after,
          filter (fun s => s <> EmptyString)
                 (split_on "/"%char (pathname parsed))
          = before ++ [prefix; fileKey parts] ++ after
          /\ (prefix = "design" \/ prefix = "file")
          /\ Forall (fun s => s <> "design" /\ s <> "file") before)
  /\ fileKey parts <> EmptyString
  /\ occurs "/"%char (fileKey parts) = false
  /\ (forall n, nodeId parts = Some n ->
                n <> EmptyString /\ occurs "-"%char n = false).
Proof.
  unfold parseFigmaUrl.
  destruct (new_URL (strip_escapes url)) as [parsed|]; [|done].
  destruct (ends_with "figma.com" (hostname parsed)) eqn:Hhost; [|done].
  cbn [negb].
  set (segments := filter _ (split_on _ (pathname parsed))).
  destruct (list_find _ segments) as [[i seg]|] eqn:Hfind; [|done].
  destruct (segments !! (i + 1)) as [key|] eqn:Hkey; [|done].
  destruct (String.eqb_spec key EmptyString) as [|Hne]; [done|].
  intros [= <-]. cbn [fileKey nodeId].
  apply list_find_Some in Hfind as (Hi & Hseg & Hfirst).
  assert (key ∈ segments) as Hin by by eapply list_elem_of_lookup_2.
  split; [|split; [done|split]].
  - exists parsed. split; [done|]. split; [done|].
    exists (take i segments), seg, (drop (i + 2) segments).
    split; [|split; [done|]].
    + change (segments
              = take i segments ++ [seg; key] ++ drop (i + 2) segments).
      rewrite <- (take_drop i segments) at 1. f_equal.
      rewrite (drop_S _ seg i) by done. f_equal.
      rewrite (drop_S _ key (S i)) by (by rewrite <- Nat.add_1_r).
      by replace (i + 2) with (S (S i)) by lia.
    + apply Forall_lookup. intros j s Hj.
      apply lookup_take_Some in Hj as [Hj Hlt].
      specialize (Hfirst j s Hj Hlt).
      split; intros ->; apply Hfirst; [by left|by right].
  - apply list_elem_of_filter in Hin as [_ Hin].
    by apply split_on_pieces in Hin.
  - intros n. destruct (node_id_param parsed) as [raw|]; [|done].
    destruct (String.eqb_spec raw EmptyString) as [|Hraw]; [done|].
    intros [= <-]. split.
    + by apply replace_char_single_nonempty.
    + by apply (replace_char_single_absent "-"%char ":"%char).
Qed.

(** A deep link built for a file key and a node id parses back to that key
    and that id, when the platform's parser reads the link the plain way
    and the key is a path segment and the id holds no hyphen. *)
Theorem deep_link_round_trip (key node : string) :
  new_URL (strip_escapes (buildFigmaUrl key node))
  = Some (mkURL "www.figma.com" ("/design/" +:+ key) (Some (hyphenate node))) ->
  key <> EmptyString -> occurs "/"%char key = false ->
  node <> EmptyString -> occurs "-"%char node = false ->
  parseFigmaUrl new_URL (buildFigmaUrl key node)
  = Returns (mkParts key (Some node)).
Proof.
  intros Hparse Hkey Hslash Hnode Hhyphen. unfold parseFigmaUrl.
  rewrite Hparse. cbn [hostname pathname node_id_param].
  change (ends_with "figma.com" "www.figma.com") with true. cbn [negb].
  assert (filter (fun s => s <> EmptyString)
                 (split_on "/"%char ("/design/" +:+ key))
          = ["design"; key]) as ->.
  { rewrite !append_cons, append_nil_l. cbn [split_on].
    change (Ascii.eqb "/" "/") with true.
    change (Ascii.eqb "d" "/") with false.
    change (Ascii.eqb "e" "/") with false.
    change (Ascii.eqb "s" "/") with false.
    change (Ascii.eqb "i" "/") with false.
    change (Ascii.eqb "g" "/") with false.
    change (Ascii.eqb "n" "/") with false.
    cbv iota. rewrite (split_on_absent _ key) by done.
    rewrite filter_cons_False by (intros H; by apply H).
    rewrite filter_cons_True by done.
    by rewrite filter_cons_True, filter_nil by done. }
  assert (list_find (fun s : string => s = "design" \/ s = "file")
                     ["design"; key] = Some (0, "design")) as ->.
  { apply list_find_Some. split; [done|]. split; [by left|]. intros; lia. }
  cbn [Nat.add]. change (["design"; key] !! 1) with (Some key).
  cbv iota beta.
  destruct (String.eqb_spec key EmptyString) as [|_]; [done|].
  destruct (String.eqb_spec (hyphenate node) EmptyString) as [Hempty|_].
  - by apply replace_char_single_nonempty in Hempty.
  - f_equal. f_equal. f_equal.
    by apply (replace_char_single_back ":"%char "-"%char).
Qed.

End url_facts.

Lemma parseFigmaUrl_returns_witness :
  occurs "/"%char "abc123" = false
  /\ forall n, Some "42:100" = Some n ->
               n <> EmptyString /\ occurs "-"%char n = false.
Proof.
  apply (parseFigmaUrl_returns example_new_URL
           "https://www.figma.com/design/abc123?node-id=42-100"
           (mkParts "abc123" (Some "42:100")) eq_refl).
Defined.

Lemma deep_link_round_trip_witness :
  parseFigmaUrl example_new_URL (buildFigmaUrl "abc123" "42:100")
  = Returns (mkParts "abc123" (Some "42:100")).
Proof.
  apply (deep_link_round_trip example_new_URL "abc123" "42:100");
    [reflexivity|discriminate|reflexivity|discriminate|reflexivity].
Defined.

(** ** Reading the arguments *)

Lemma scan_invariant (I : CliArgs -> Prop) (ok : string -> Prop) :
  (forall arg next a, ok arg -> I a -> I (step arg next a)) ->
  forall argv a, Forall ok argv -> I a -> I (scan argv a).
Proof.
  intros Hstep argv.
  induction argv as [argv IH] using (induction_ltof1 _ (@length string)).
  unfold ltof in IH. intros a Hok Ha.
  destruct argv as [|arg [|next after]]; cbn [scan]; [done|..].
  - apply Hstep; [by inversion Hok|done].
  - inversion Hok as [|? ? Harg Hrest]; subst.
    destruct (takes_value arg).
    + apply (IH after); [cbn [length]; lia|by inversion Hrest|by apply Hstep].
    + apply (IH (next :: after));
        [cbn [length]; lia|done|by apply Hstep].
Qed.

Lemma step_keeps_url arg next a :
  arg <> "--url" /\ arg <> "-u" -> arg_url (step arg next a) = arg_url a.
Proof.
  intros [? ?]. unfold step.
  repeat (case_bool_decide; [try done; try naive_solver|]).
  by destruct (_ && _).
Qed.

Lemma step_keeps_fileKey arg next a :
  arg <> "--file-key" /\ arg <> "-f" -> arg_fileKey a <> EmptyString ->
  arg_fileKey (step arg next a) = arg_fileKey a.
Proof.
  intros [? ?] Hkey. unfold step.
  repeat (case_bool_decide; [try done; try naive_solver|]).
  destruct (String.eqb_spec (arg_fileKey a) EmptyString); [done|].
  by rewrite andb_false_r.
Qed.

Lemma infer_format_fields a :
  arg_fileKey (infer_format a) = arg_fileKey a
  /\ arg_url (infer_format a) = arg_url a
  /\ arg_nodeId (infer_format a) = arg_nodeId a
  /\ arg_token (infer_format a) = arg_token a
  /\ arg_output (infer_format a) = arg_output a
  /\ arg_auditType (infer_format a) = arg_auditType a
  /\ arg_help (infer_format a) = arg_help a.
Proof.
  unfold infer_format.
  destruct (arg_output a) as [out|] eqn:Hout; cbv iota; [|done].
  destruct (_ && _); [|done].
  destruct (ends_with ".json" out); [done|].
  by destruct (_ || _).
Qed.

Lemma infer_format_extension a out :
  arg_output a = Some out -> out <> EmptyString ->
  ends_with ".json" out || ends_with ".html" out || ends_with ".htm" out
  = true ->
  arg_format (infer_format a) <> "console".
Proof.
  intros Hout Hne Hext. unfold infer_format. rewrite Hout.
  destruct (String.eqb_spec out EmptyString); [done|]. cbn [negb andb].
  destruct (String.eqb_spec (arg_format a) "console") as [Hc|Hc]; [|done].
  destruct (ends_with ".json" out); [done|].
  cbn [orb] in Hext. by rewrite Hext.
Qed.

Section args_facts.
Context (new_URL : string -> option URL).

(** Only a URL can make the reading of the arguments fail: when no
    argument is [--url] or [-u], [parseArgs] returns, whatever the platform's
    parser does, and the arguments it returns hold no URL. *)
Theorem parseArgs_without_url (key token : option string)
    (argv : list string) :
  Forall (fun arg => arg <> "--url" /\ arg <> "-u") (drop 2 argv) ->
  exists a, parseArgs new_URL key token argv = Returns a
            /\ arg_url a = EmptyString.
Proof.
  intros Hok. unfold parseArgs.
  assert (arg_url (scan (drop 2 argv) (initial_args key token))
          = EmptyString) as Hurl.
  { apply (scan_invariant (fun a => arg_url a = EmptyString)
                          (fun arg => arg <> "--url" /\ arg <> "-u"));
      [|done|done].
    intros arg next a Harg Ha. by rewrite step_keeps_url. }
  unfold initial_args in Hurl. rewrite Hurl. cbn [String.eqb].
  eexists. split; [done|].
  by rewrite (proj1 (proj2 (infer_format_fields _))).
Qed.

(** A file key from the environment wins: unless [--file-key] or [-f] is
    among the arguments, neither a positional argument nor the key of a
    URL replaces a non-empty [FIGMA_FILE_KEY]. *)
Theorem environment_file_key_wins (env_key : string) (token : option string)
    (argv : list string) (a : CliArgs) :
  env_key <> EmptyString ->
  Forall (fun arg => arg <> "--file-key" /\ arg <> "-f") (drop 2 argv) ->
  parseArgs new_URL (Some env_key) token argv = Returns a ->
  arg_fileKey a = env_key.
Proof.
  intros Hkey Hok. unfold parseArgs.
  fold (initial_args (Some env_key) token).
  set (scanned := scan (drop 2 argv) (initial_args (Some env_key) token)).
  assert (arg_fileKey scanned = env_key) as Hscanned.
  { apply (scan_invariant (fun a => arg_fileKey a = env_key)
                          (fun arg => arg <> "--file-key" /\ arg <> "-f"));
      [|done|done].
    intros arg next b Harg Hb. rewrite step_keeps_fileKey; [done|done|].
    by rewrite Hb. }
  destruct (String.eqb (arg_url scanned) EmptyString).
  - intros [= <-]. by rewrite (proj1 (infer_format_fields _)).
  - destruct (parseFigmaUrl new_URL (arg_url scanned)); [|done].
    intros [= <-]. rewrite (proj1 (infer_format_fields _)).
    cbn [arg_fileKey]. rewrite Hscanned.
    by destruct (String.eqb_spec env_key EmptyString).
Qed.

(** The format follows the output file: arguments returned with an output
    file whose name ends in [.json], [.html] or [.htm] never keep the
    format [console]. *)
Theorem format_follows_extension (key token : option string)
    (argv : list string) (a : CliArgs) (out : string) :
  parseArgs new_URL key token argv = Returns a ->
  arg_output a = Some out -> out <> EmptyString ->
  ends_with ".json" out || ends_with ".html" out || ends_with ".htm" out
  = true ->
  arg_format a <> "console".
Proof.
  unfold parseArgs. fold (initial_args key token).
  set (scanned := scan (drop 2 argv) (initial_args key token)).
  destruct (String.eqb (arg_url scanned) EmptyString).
  - intros [= <-] Hout. apply infer_format_extension.
    by rewrite <- Hout, (proj1 (proj2 (proj2 (proj2 (proj2
                 (infer_format_fields _)))))).
  - destruct (parseFigmaUrl new_URL (arg_url scanned)); [|done].
    intros [= <-] Hout. apply infer_format_extension.
    by rewrite <- Hout, (proj1 (proj2 (proj2 (proj2 (proj2
                 (infer_format_fields _)))))).
Qed.

End args_facts.

Lemma parseArgs_without_url_witness :
  exists a, parseArgs example_new_URL None None
              ["node"; "ctdslint"; "abc123"; "-o"; "report.json"]
            = Returns a /\ arg_url a = EmptyString.
Proof.
  apply (parseArgs_without_url example_new_URL None None).
  cbn [drop]. repeat constructor; discriminate.
Defined.

Lemma environment_file_key_wins_witness :
  arg_fileKey (mkArgs "abc123" "https://www.figma.com/design/other" "42:100"
                      "" None "console" "system" false) = "abc123".
Proof.
  apply (environment_file_key_wins example_new_URL "abc123" None
           ["node"; "ctdslint"; "other"; "--url";
            "https://www.figma.com/design/other"]);
    [discriminate|cbn [drop]; repeat constructor; discriminate|reflexivity].
Defined.

Lemma format_follows_extension_witness :
  "json" <> "console".
Proof.
  apply (format_follows_extension example_new_URL None None
           ["node"; "ctdslint"; "abc123"; "-o"; "report.json"]
           (mkArgs "abc123" "" "" "" (Some "report.json") "json" "system"
                   false) "report.json");
    [reflexivity|reflexivity|discriminate|reflexivity].
Defined.

End CliFacts.
